(** * dg_benchmarks.codegen: the signature-keyed tracing-and-compilation cache

    A shallow embedding of [src/dg_benchmarks/codegen/__init__.py]
    ([LazilyArraycontextCompilingFunctionCaller.__call__], the host code it
    generates, and [SuiteGeneratingArraycontext.__init__]) together with the
    reader of the reference-input artifact and the warm-up and timing rounds
    of [get_flop_rate] in [src/dg_benchmarks/measure.py], and the first loop
    nest of [main] and the command line of [src/dg_benchmarks/run.py].

    Python objects are modelled as follows.
    - A dict or [Map] that is only looked up is a [gmap]; a dict whose
      insertion order can be observed is an association list.
    - An array container is a tree whose inner nodes carry the container
      class and whose leaves are arrays.
    - A raising Python call is a computation in the monad [M], which threads
      a state and keeps the state reached when an exception is raised.
    - Everything that lives in another package (pytato, numpy, autoflake,
      black, the user's function, the array backend) is a section variable. *)

From Stdlib Require Import Ascii.
From stdpp Require Import gmap strings list fin_maps pretty sorting.
From Stdlib Require Import ZArith.

(** ** Python exceptions *)

Inductive exn :=
| ValueError (msg : string)
| NotImplementedError (msg : string)
| AssertionError (msg : string)
| AttributeError (msg : string)
| IndexError
| KeyError
| OSError (path : string)
| UnpicklingError (path : string)
| BackendError (msg : string).

(** ** A state and exception monad

    [M S A] is a Python computation over a mutable state [S]: it ends with
    a value or with a raised exception, and in both cases the state reached
    so far is kept (a raise does not roll anything back). *)

Definition M (S A : Type) : Type := S → (exn + A) * S.

Definition ret {S A} (a : A) : M S A := λ s, (inr a, s).

Definition bind {S A B} (m : M S A) (k : A → M S B) : M S B := λ s,
  match m s with
  | (inl e, s') => (inl e, s')
  | (inr a, s') => k a s'
  end.

Declare Scope py_scope.
Notation "x ← y ; z" := (bind y (λ x, z))
  (at level 20, y at level 100, z at level 200, only parsing) : py_scope.
Open Scope py_scope.

Definition raise {S A} (e : exn) : M S A := λ s, (inl e, s).
Definition get {S} : M S S := λ s, (inr s, s).
Definition modify {S} (g : S → S) : M S unit := λ s, (inr tt, g s).
Definition lift {S A} (r : exn + A) : M S A := λ s, (r, s).

(** ** Container keys and their stringification *)

(** A key of an array container, a positional index or a keyword name. *)
Inductive key :=
| KInt (n : nat)
| KStr (s : string).

Global Instance key_eq_dec : EqDecision key.
Proof. solve_decision. Defined.

Global Instance key_countable : Countable key.
Proof.
  refine (inj_countable'
            (λ k, match k with KInt n => inl n | KStr s => inr s end)
            (λ x, match x with inl n => KInt n | inr s => KStr s end) _).
  by intros [].
Defined.

(** Argument ids and container paths are tuples of keys. *)
Abbreviation arg_id := (list key).

(** Modelled from the spec: [arraycontext]'s [_ary_container_key_stringifier]
    is not part of this repository; section 4.3 asks for a deterministic
    stringification of the container path.  The library joins [str(key)] of
    every key with an underscore. *)
Definition _rec_str (k : key) : string :=
  match k with
  | KInt n => pretty n
  | KStr s => s
  end.

Definition _ary_container_key_stringifier (keys : list key) : string :=
  String.concat "_" (_rec_str <$> keys).

(** ** Array containers *)

(** [Leaf a] is a bare array; [Node cls items] is an instance of the
    container class [cls] whose serialization is [items]. *)
#[warnings="-register-all"]
Inductive container (A : Type) : Type :=
| Leaf (a : A)
| Node (cls : string) (items : list (key * container A)).

Arguments Leaf {A} a.
Arguments Node {A} cls items.

(** [is_array_container_type(x.__class__)] *)
Definition is_array_container {A} (c : container A) : bool :=
  match c with
  | Leaf _ => false
  | Node _ _ => true
  end.

(** [arraycontext.rec_keyed_map_array_container(f, ary)]: apply [f] to
    every leaf together with the tuple of keys leading to it, in
    serialization order, and rebuild the container.  [f] is a Python closure
    and may update the variables it closes over, or raise. *)
Fixpoint rec_keyed_map {S A B} (f : list key → A → M S B)
    (keys : list key) (ary : container A) : M S (container B) :=
  match ary with
  | Leaf a => b ← f keys a; ret (Leaf b)
  | Node cls items =>
      items' ← (fix go (l : list (key * container A))
                  : M S (list (key * container B)) :=
                  match l with
                  | [] => ret []
                  | (k, sub) :: rest =>
                      sub' ← rec_keyed_map f (keys ++ [k]) sub;
                      rest' ← go rest;
                      ret ((k, sub') :: rest')
                  end) items;
      ret (Node cls items')
  end.

Definition rec_keyed_map_array_container {S A B}
    (f : list key → A → M S B) (ary : container A) : M S (container B) :=
  rec_keyed_map f [] ary.

(** The pure reading of the traversal: the rebuilt container when [f] is a
    function, and the leaves in the order in which they are visited. *)
Fixpoint keyed_map {A B} (g : list key → A → B)
    (keys : list key) (ary : container A) : container B :=
  match ary with
  | Leaf a => Leaf (g keys a)
  | Node cls items =>
      Node cls ((fix go (l : list (key * container A)) :=
                   match l with
                   | [] => []
                   | (k, sub) :: rest =>
                       (k, keyed_map g (keys ++ [k]) sub) :: go rest
                   end) items)
  end.

Fixpoint keyed_leaves {A} (keys : list key) (ary : container A)
    : list (list key * A) :=
  match ary with
  | Leaf a => [(keys, a)]
  | Node _ items =>
      (fix go (l : list (key * container A)) :=
         match l with
         | [] => []
         | (k, sub) :: rest => keyed_leaves (keys ++ [k]) sub ++ go rest
         end) items
  end.

(** The loops over the items of a node, by name. *)
Definition rec_keyed_map_items {S A B} (f : list key → A → M S B)
    (keys : list key) (items : list (key * container A))
    : M S (list (key * container B)) :=
  (fix go (l : list (key * container A)) : M S (list (key * container B)) :=
     match l with
     | [] => ret []
     | (k, sub) :: rest =>
         sub' ← rec_keyed_map f (keys ++ [k]) sub;
         rest' ← go rest;
         ret ((k, sub') :: rest')
     end) items.

Definition keyed_map_items {A B} (g : list key → A → B)
    (keys : list key) (items : list (key * container A))
    : list (key * container B) :=
  (fix go (l : list (key * container A)) :=
     match l with
     | [] => []
     | (k, sub) :: rest => (k, keyed_map g (keys ++ [k]) sub) :: go rest
     end) items.

Definition keyed_leaves_items {A} (keys : list key)
    (items : list (key * container A)) : list (list key * A) :=
  (fix go (l : list (key * container A)) :=
     match l with
     | [] => []
     | (k, sub) :: rest => keyed_leaves (keys ++ [k]) sub ++ go rest
     end) items.

(** The traversal with a closure that can raise but closes over nothing:
    the result alone. *)
Definition traverse {A B} (g : list key → A → exn + B)
    (keys : list key) (ary : container A) : exn + container B :=
  (rec_keyed_map (S:=unit) (λ k a, lift (g k a)) keys ary tt).1.

(** The shape of a container: classes and keys, leaves forgotten. *)
Definition skeleton {A} (ary : container A) : container unit :=
  keyed_map (λ _ _, tt) [] ary.

(** ** Arrays, scalars and Python values *)

(** What the code asks of an array ([pt.Array], a device array, a numpy
    array): its shape, its dtype, and [pt.make_placeholder]. *)
Class ArrayLike (Array : Type) := {
  shape : Array → list nat;
  dtype : Array → string;
  make_placeholder : string → list nat → string → Array;
}.

(** A leaf argument: a scalar (with [np.dtype(type(x))]) or an array. *)
Inductive leaf (Array Scalar : Type) : Type :=
| LScalar (d : string) (x : Scalar)
| LArray (a : Array).

Arguments LScalar {Array Scalar} d x.
Arguments LArray {Array Scalar} a.

(** The Python values a call can receive or a traced function can return:
    a scalar ([np.isscalar]), an array or array container, a mapping from
    argument ids to leaves (the [Map] built by the signature extractor), or
    an object of some other class. *)
Inductive value (Array Scalar : Type) : Type :=
| VScalar (d : string) (x : Scalar)
| VArrays (c : container Array)
| VBindings (m : gmap arg_id (leaf Array Scalar))
| VObject (cls : string).

Arguments VScalar {Array Scalar} d x.
Arguments VArrays {Array Scalar} c.
Arguments VBindings {Array Scalar} m.
Arguments VObject {Array Scalar} cls.

(** ** Argument descriptors *)

Inductive descr :=
| ScalarInputDescriptor (d : string)
| LeafArrayDescriptor (d : string) (s : list nat).

Global Instance descr_eq_dec : EqDecision descr.
Proof. solve_decision. Defined.

Global Instance descr_countable : Countable descr.
Proof.
  refine (inj_countable'
            (λ x, match x with
                  | ScalarInputDescriptor d => inl d
                  | LeafArrayDescriptor d s => inr (d, s)
                  end)
            (λ y, match y with
                  | inl d => ScalarInputDescriptor d
                  | inr (d, s) => LeafArrayDescriptor d s
                  end) _).
  by intros [].
Defined.

(** The cache key: a map from argument id to descriptor. *)
Abbreviation descriptor := (gmap arg_id descr).

(** ** Small Python idioms *)

(** [enumerate(args)], with the index as a container key. *)
Definition enumerate {A} (l : list A) : list (key * A) :=
  imap (λ i a, (KInt i, a)) l.

(** [kwargs.items()], with the keyword as a container key. *)
Definition kw_items {A} (kwargs : list (string * A)) : list (key * A) :=
  (λ kv, (KStr kv.1, kv.2)) <$> kwargs.

(** [for x in l: body(x)] *)
Fixpoint for_each {S A} (body : A → M S unit) (l : list A) : M S unit :=
  match l with
  | [] => ret tt
  | x :: rest => _ ← body x; for_each body rest
  end.

(** [[body(x) for x in l]] *)
Fixpoint list_comprehension {S A B} (body : A → M S B) (l : list A)
    : M S (list B) :=
  match l with
  | [] => ret []
  | x :: rest =>
      y ← body x; ys ← list_comprehension body rest; ret (y :: ys)
  end.

(** A list comprehension whose body can raise but changes nothing: the
    result alone. *)
Definition collect {A B} (g : A → exn + B) (l : list A) : exn + list B :=
  (list_comprehension (S:=unit) (λ x, lift (g x)) l tt).1.

(** [d[k] = v] on an insertion-ordered dict: an existing key keeps its
    place, a new key goes last. *)
Fixpoint dict_set {V} (k : string) (v : V) (d : list (string * V))
    : list (string * V) :=
  match d with
  | [] => [(k, v)]
  | (k', v') :: rest =>
      if decide (k = k') then (k, v) :: rest else (k', v') :: dict_set k v rest
  end.

(** [{k: v for k, v in l}] read as a map: a later pair overrides. *)
Definition dict_of_pairs `{Countable K} {V} (l : list (K * V)) : gmap K V :=
  foldl (λ acc kv, <[kv.1 := kv.2]> acc) ∅ l.

(** [sorted(l, key=key)] on string keys: a stable insertion sort under the
    lexicographic order of the keys. *)
Fixpoint insert_by {A} (key : A → string) (x : A) (l : list A) : list A :=
  match l with
  | [] => [x]
  | y :: rest =>
      if String.leb (key x) (key y) then x :: y :: rest
      else y :: insert_by key x rest
  end.

Definition sorted {A} (key : A → string) (l : list A) : list A :=
  foldr (insert_by key) [] l.

(** The order that [sorted] sorts by. *)
Definition key_le {A} (key : A → string) (a b : A) : Prop :=
  String.leb (key a) (key b) = true.

(** [os.path.isabs] of [posixpath]: the path starts with a slash. *)
Definition isabs (p : string) : bool :=
  match p with
  | String c _ => bool_decide (c = "/"%char)
  | EmptyString => false
  end.

(** ** SuiteGeneratingArraycontext *)

Record SuiteGeneratingArraycontext := {
  main_file_path : string;
  datawrappers_path : string;
  pickled_ref_input_args_path : string;
  pickled_ref_output_path : string;
  pickled_output_template_path : string;
}.

(** The five artifact paths of a context. *)
Definition artifact_paths (self_actx : SuiteGeneratingArraycontext)
    : list string :=
  [main_file_path self_actx; datawrappers_path self_actx;
   pickled_ref_input_args_path self_actx;
   pickled_output_template_path self_actx;
   pickled_ref_output_path self_actx].

(** [SuiteGeneratingArraycontext.__init__], in any state [S] of the world:
    the constructor looks at its five arguments only. *)
Definition SuiteGeneratingArraycontext__init__ {S}
    (main_file_path datawrappers_path pickled_ref_input_args_path
     pickled_ref_output_path pickled_output_template_path : string)
    : M S SuiteGeneratingArraycontext :=
  if existsb (λ filepath, negb (isabs filepath))
       [main_file_path; datawrappers_path; pickled_ref_input_args_path;
        pickled_ref_output_path; pickled_output_template_path]
  then raise (ValueError "Absolute paths are expected.")
  else ret {| main_file_path := main_file_path;
               datawrappers_path := datawrappers_path;
               pickled_ref_input_args_path := pickled_ref_input_args_path;
               pickled_ref_output_path := pickled_ref_output_path;
               pickled_output_template_path := pickled_output_template_path |}.

(** ** The compiling function caller *)

Section Codegen.
Context {Array Scalar : Type} `{!ArrayLike Array}.

Abbreviation val := (value Array Scalar).
Abbreviation bindings := (gmap arg_id (leaf Array Scalar)).

(** *** The signature extractor *)

(** The closure [id_collector] of the extractor: it records the array
    under its argument id in both dicts and hands the array back. *)
Definition id_collector (kw : key) (keys : list key) (ary : Array)
    : M (bindings * descriptor) Array :=
  λ s, (inr ary,
        (<[kw :: keys := LArray ary]> s.1,
         <[kw :: keys := LeafArrayDescriptor (dtype ary) (shape ary)]> s.2)).

(** Modelled from the spec: [_get_arg_id_to_arg_and_arg_id_to_descr] is
    imported from [arraycontext] and is not part of this repository.
    Section 4.1: it derives a value-independent descriptor and the flat
    mapping from leaf argument to runtime value, and fails on an argument
    that is neither a scalar, an array container nor an array. *)
Definition extract_one (kw_arg : key * val) : M (bindings * descriptor) unit :=
  let '(kw, arg) := kw_arg in
  match arg with
  | VScalar d x =>
      modify (λ s, (<[[kw] := LScalar d x]> s.1,
                    <[[kw] := ScalarInputDescriptor d]> s.2))
  | VArrays c =>
      _ ← rec_keyed_map_array_container (id_collector kw) c; ret tt
  | _ =>
      raise (ValueError "Argument to a compiled operator should be either a scalar, pt.Array or an array container.")
  end.

Definition _get_arg_id_to_arg_and_arg_id_to_descr
    (args : list val) (kwargs : list (string * val))
    : exn + (bindings * descriptor) :=
  match for_each extract_one (enumerate args ++ kw_items kwargs) (∅, ∅) with
  | (inl e, _) => inl e
  | (inr _, s) => inr s
  end.

(** The arguments that the signature extractor takes: scalars, arrays and
    array containers. *)
Definition recognized (arg : val) : bool :=
  match arg with
  | VScalar _ _ | VArrays _ => true
  | _ => false
  end.

(** The argument ids that an argument contributes: its own for a scalar
    or an array, one for every leaf of a container. *)
Definition arg_ids_of (kw : key) (arg : val) : list arg_id :=
  match arg with
  | VScalar _ _ => [[kw]]
  | VArrays c => (λ ka, kw :: ka.1) <$> keyed_leaves [] c
  | _ => []
  end.

(** Modelled from the spec: [_get_f_placeholder_args] is imported from
    [arraycontext].  Section 4.2: every leaf argument is replaced by a
    named placeholder of the same shape and dtype inside the original
    container structure. *)
Definition lookup_name {S : Type} (arg_id_to_name : gmap arg_id string)
    (i : arg_id) : M S string :=
  match arg_id_to_name !! i with
  | Some name => ret name
  | None => raise KeyError
  end.

Definition _get_f_placeholder_args {S : Type} (arg : val) (kw : key)
    (arg_id_to_name : gmap arg_id string) : M S val :=
  match arg with
  | VScalar d _ =>
      name ← lookup_name arg_id_to_name [kw];
      ret (VArrays (Leaf (make_placeholder name [] d)))
  | VArrays (Leaf a) =>
      name ← lookup_name arg_id_to_name [kw];
      ret (VArrays (Leaf (make_placeholder name (shape a) (dtype a))))
  | VArrays c =>
      c' ← rec_keyed_map_array_container
             (λ keys ary,
                name ← lookup_name arg_id_to_name (kw :: keys);
                ret (make_placeholder name (shape ary) (dtype ary))) c;
      ret (VArrays c')
  | _ => raise (NotImplementedError "type(arg)")
  end.

(** The placeholder argument when every leaf is named after its
    argument id: the argument with a placeholder of the same shape and dtype
    for every leaf, and a placeholder of shape [()] for a scalar. *)
Definition placeholder_value (kw : key) (arg : val) : val :=
  match arg with
  | VScalar d _ =>
      VArrays
        (Leaf (make_placeholder
                 ("_actx_in_" +:+ _ary_container_key_stringifier [kw]) [] d))
  | VArrays c =>
      VArrays
        (keyed_map
           (λ keys ary,
              make_placeholder
                ("_actx_in_" +:+ _ary_container_key_stringifier (kw :: keys))
                (shape ary) (dtype ary))
           [] c)
  | _ => arg
  end.

(** The placeholder argument alone: building it changes no state. *)
Definition placeholder_of (arg_id_to_name : gmap arg_id string)
    (kw : key) (arg : val) : exn + val :=
  (_get_f_placeholder_args (S:=unit) arg kw arg_id_to_name tt).1.

(** *** What is pickled and what is on disk *)

#[warnings="-register-all"]
Inductive pyobj :=
| PVal (v : val)
| PTuple (items : list pyobj)
| PDict (items : list (string * pyobj)).

Inductive file :=
| FText (text : string)
| FNpz (arrays : list (string * Array))
| FPickle (o : pyobj).

(** *** The tool chain outside this file *)

(** The result of [generate_arraycontext_code]. *)
Context {Ast : Type}.

Record inner_code_prg := {
  import_statements : Ast;
  function_def : Ast;
  numpy_arrays_to_store : list (string * Array);
}.

(** [.pytato_target.generate_arraycontext_code], applied to the
    insertion-ordered dict of named arrays. *)
Variable generate_arraycontext_code : list (string * Array) → inner_code_prg.

(** [ast.unparse(ast.fix_missing_locations(ast.Module(body)))] for the
    import statements and for the function definition. *)
Variable unparse : Ast → string.

(** The five pieces of constant text of the host-code template, around
    its four interpolations. *)
Variables host0 host1 host2 host3 host4 : string.

(** [re.sub] of the indentation pattern, [remove_common_indentation],
    [autoflake] with its options, and [black] at line length 80. *)
Variables re_sub_indent remove_common_indentation autoflake black
  : string → string.

(** [os.path.relpath(p, start=get_dg_benchmarks_path())] and
    [os.path.join(get_dg_benchmarks_path(), rel)]. *)
Variables relpath join_dg_benchmarks_path : string → string.

(** [actx.compile(partial(_rhs_inner, actx=actx, npzfile=npzfile))]
    applied to keyword arguments: the flat one-dimensional object array of
    results, or the exception the backend raises. *)
Variable compiled_rhs_inner :
  inner_code_prg → list (string * Array) → gmap string (leaf Array Scalar)
  → exn + list Array.

(** [actx.to_numpy] on one array, and whether
    [rec_multimap_array_container(np.testing.assert_allclose, x, y)]
    returns without raising. *)
Variable to_numpy : Array → Array.
Variable assert_allclose : val → val → bool.

(** The user's function [self.f]. *)
Variable f : list val → list (string * val) → val.

Definition value_to_numpy (v : val) : val :=
  match v with
  | VArrays c => VArrays (keyed_map (λ _, to_numpy) [] c)
  | _ => v
  end.

(** *** The generated host code *)

(** The callable obtained by executing the host code: the inner program,
    the two relative paths written into the text, and the values
    memoized by [_get_compiled_rhs_inner] and [_get_output_template]. *)
Record compiled := {
  c_prg : inner_code_prg;
  c_datawrappers : string;
  c_output_template : string;
  c_npzfile : option (list (string * Array));
  c_template : option pyobj;
}.

Definition set_npzfile (npz : list (string * Array)) (c : compiled) :=
  {| c_prg := c_prg c; c_datawrappers := c_datawrappers c;
     c_output_template := c_output_template c;
     c_npzfile := Some npz; c_template := c_template c |}.

Definition set_template (o : pyobj) (c : compiled) :=
  {| c_prg := c_prg c; c_datawrappers := c_datawrappers c;
     c_output_template := c_output_template c;
     c_npzfile := c_npzfile c; c_template := Some o |}.

(** [_get_compiled_rhs_inner(actx)], memoized on the array context.  The
    archive that [np.load] opens is taken as the arrays it holds at that
    moment. *)
Definition _get_compiled_rhs_inner (fs : gmap string file)
    : M compiled (list (string * Array)) :=
  c ← get;
  match c_npzfile c with
  | Some npz => ret npz
  | None =>
      let path := join_dg_benchmarks_path (c_datawrappers c) in
      match fs !! path with
      | Some (FNpz npz) => _ ← modify (set_npzfile npz); ret npz
      | Some _ => raise (UnpicklingError path)
      | None => raise (OSError path)
      end
  end.

(** [_get_output_template()], under [functools.cache]. *)
Definition _get_output_template (fs : gmap string file) : M compiled pyobj :=
  c ← get;
  match c_template c with
  | Some o => ret o
  | None =>
      let fpath := join_dg_benchmarks_path (c_output_template c) in
      match fs !! fpath with
      | Some (FPickle o) => _ ← modify (set_template o); ret o
      | Some _ => raise (UnpicklingError fpath)
      | None => raise (OSError fpath)
      end
  end.

(** [_get_key_to_pos_in_output_template()]: collect the key tuples of
    the leaves in a set, sort them by their stringification, and number
    them. *)
Definition output_keys_of (output_template : container Array)
    : gset (list key) :=
  (rec_keyed_map_array_container
     (λ keys ary, _ ← modify (λ s : gset (list key), s ∪ {[keys]}); ret ary)
     output_template ∅).2.

Definition sorted_output_keys (output_template : container Array)
    : list (list key) :=
  sorted _ary_container_key_stringifier
    (elements (output_keys_of output_template)).

Definition _get_key_to_pos_in_output_template
    (output_template : container Array) : gmap (list key) nat :=
  dict_of_pairs
    (imap (λ i output_key, (output_key, i))
       (sorted_output_keys output_template)).

(** The closure [to_output_template] of [rhs]. *)
Definition to_output_template {S : Type} (keys_to_pos : gmap (list key) nat)
    (result_as_np_obj_array : list Array) (keys : list key) (_ : Array)
    : M S Array :=
  match keys_to_pos !! keys with
  | None => raise KeyError
  | Some pos =>
      match result_as_np_obj_array !! pos with
      | None => raise IndexError
      | Some a => ret a
      end
  end.

(** What [to_output_template] puts at a leaf, with the template's own
    leaf where the closure would raise. *)
Definition picked (keys_to_pos : gmap (list key) nat) (flat : list Array)
    (keys : list key) (a : Array) : Array :=
  default a (keys_to_pos !! keys ≫= λ pos, flat !! pos).

(** What [to_output_template] returns or raises; it changes nothing. *)
Definition to_output_template_pure (keys_to_pos : gmap (list key) nat)
    (result_as_np_obj_array : list Array) (keys : list key) (_ : Array)
    : exn + Array :=
  match keys_to_pos !! keys with
  | None => inl KeyError
  | Some pos =>
      match result_as_np_obj_array !! pos with
      | None => inl IndexError
      | Some a => inr a
      end
  end.

(** The dict comprehension of [rhs] that names the leaf arguments. *)
Definition input_kwargs_to_rhs_inner (arg_id_to_arg : bindings)
    : gmap string (leaf Array Scalar) :=
  dict_of_pairs
    ((λ kv, ("_actx_in_" +:+ _ary_container_key_stringifier kv.1, kv.2))
       <$> map_to_list arg_id_to_arg).

(** The last part of [rhs]: the flat result is put back into the shape
    of the output template, or, for a single array, checked to have shape
    [(1,)] and unwrapped. *)
Definition assemble_output {S : Type} (output_template : pyobj)
    (result_as_np_obj_array : list Array) : M S val :=
  match output_template with
  | PVal (VArrays (Node cls items)) =>
      let keys_to_pos :=
        _get_key_to_pos_in_output_template (Node cls items) in
      r ← rec_keyed_map_array_container
            (to_output_template keys_to_pos result_as_np_obj_array)
            (Node cls items);
      ret (VArrays r)
  | PVal (VArrays (Leaf _)) =>
      if decide ([length result_as_np_obj_array] = [1])
      then match result_as_np_obj_array !! 0 with
           | Some a => ret (VArrays (Leaf a))
           | None => raise IndexError
           end
      else raise (AssertionError "result_as_np_obj_array.shape == (1,)")
  | _ => raise (AssertionError "isinstance(output_template, Array)")
  end.

(** [rhs] of the generated module, called with positional arguments
    [args] and keyword arguments [kwargs] after the array context. *)
Definition rhs (fs : gmap string file)
    (args : list val) (kwargs : list (string * val)) : M compiled val :=
  extracted ← lift (_get_arg_id_to_arg_and_arg_id_to_descr args kwargs);
  let arg_id_to_arg : bindings := extracted.1 in
  npzfile ← _get_compiled_rhs_inner fs;
  c ← get;
  result_as_np_obj_array ←
    lift (compiled_rhs_inner (c_prg c) npzfile
            (input_kwargs_to_rhs_inner arg_id_to_arg));
  output_template ← _get_output_template fs;
  assemble_output output_template result_as_np_obj_array.

(** *** The caller's state and [__call__] *)

(** The state the caller works on: its [program_cache], the files on
    disk, and the number of times the user's function has been invoked. *)
Record state := {
  program_cache : gmap descriptor compiled;
  files : gmap string file;
  f_calls : nat;
}.

Definition set_cache (g : gmap descriptor compiled → gmap descriptor compiled)
    (st : state) : state :=
  {| program_cache := g (program_cache st); files := files st;
     f_calls := f_calls st |}.

Definition set_files (g : gmap string file → gmap string file)
    (st : state) : state :=
  {| program_cache := program_cache st; files := g (files st);
     f_calls := f_calls st |}.

Definition count_f_call (st : state) : state :=
  {| program_cache := program_cache st; files := files st;
     f_calls := S (f_calls st) |}.

(** [with open(path, mode) as fp: fp.write(...)] or [dump(..., fp)]:
    the file is overwritten in place. *)
Definition write_file (path : string) (content : file) : M state unit :=
  modify (set_files (insert path content)).

(** A tool that rewrites a source file in place. *)
Definition rewrite_in_place (path : string) (tool : string → string)
    : M state unit :=
  st ← get;
  match files st !! path with
  | Some (FText text) => write_file path (FText (tool text))
  | _ => raise (OSError path)
  end.

(** [self.f(...)], counted. *)
Definition call_f (args : list val) (kwargs : list (string * val))
    : M state val :=
  _ ← modify count_f_call; ret (f args kwargs).

(** calling [self.program_cache[descr]] on arguments: the cached callable
    runs against the files on disk; what it memoizes stays with it. *)
Definition call_compiled (descr : descriptor)
    (args : list val) (kwargs : list (string * val)) : M state val :=
  λ st,
    match program_cache st !! descr with
    | None => (inl KeyError, st)
    | Some compiled_f =>
        let '(r, compiled_f') := rhs (files st) args kwargs compiled_f in
        (r, set_cache (insert descr compiled_f') st)
    end.

(** The closure [_as_dict_of_named_arrays] of [__call__]. *)
Definition _as_dict_of_named_arrays (keys : list key) (ary : Array)
    : M (list (string * Array)) Array :=
  let name := "_pt_out_" +:+ _ary_container_key_stringifier keys in
  _ ← modify (dict_set name ary);
  ret (make_placeholder name (shape ary) (dtype ary)).

(** What the traversal with [_as_dict_of_named_arrays] returns: the
    output with every leaf replaced by a placeholder named after its key
    tuple. *)
Definition placeholder_out_template_of (output_template : container Array)
    : container Array :=
  keyed_map
    (λ keys ary,
       make_placeholder ("_pt_out_" +:+ _ary_container_key_stringifier keys)
         (shape ary) (dtype ary))
    [] output_template.

(** The text bound to [host_code] when it is written to the main file. *)
Definition host_code_of (self_actx : SuiteGeneratingArraycontext)
    (inner_code_prg : inner_code_prg) : string :=
  remove_common_indentation
    (re_sub_indent
       (host0 +:+ unparse (import_statements inner_code_prg)
        +:+ host1 +:+ unparse (function_def inner_code_prg)
        +:+ host2 +:+ relpath (datawrappers_path self_actx)
        +:+ host3 +:+ relpath (pickled_output_template_path self_actx)
        +:+ host4)).

(** [exec(host_code, ...)] followed by taking its [rhs]. *)
Definition exec_host_code (self_actx : SuiteGeneratingArraycontext)
    (inner_code_prg : inner_code_prg) : compiled :=
  {| c_prg := inner_code_prg;
     c_datawrappers := relpath (datawrappers_path self_actx);
     c_output_template := relpath (pickled_output_template_path self_actx);
     c_npzfile := None;
     c_template := None |}.

(** The dict [input_id_to_name_in_program] of [__call__]: every argument
    id with the name of its placeholder. *)
Definition input_id_to_name_in_program (arg_id_to_arg : bindings)
    : gmap arg_id string :=
  map_imap (λ arg_id _,
              Some ("_actx_in_" +:+ _ary_container_key_stringifier arg_id))
           arg_id_to_arg.

(** Tracing: the user's function is called on placeholders named after
    the argument ids. *)
Definition trace (args : list val) (kwargs : list (string * val))
    (arg_id_to_arg : bindings) : M state val :=
  let input_id_to_name_in_program : gmap arg_id string :=
    map_imap (λ arg_id _,
                Some ("_actx_in_" +:+ _ary_container_key_stringifier arg_id))
             arg_id_to_arg in
  placeholder_args ←
    list_comprehension
      (λ ia, _get_f_placeholder_args ia.2 ia.1 input_id_to_name_in_program)
      (enumerate args);
  placeholder_kwargs ←
    list_comprehension
      (λ kv, p ← _get_f_placeholder_args kv.2 (KStr kv.1)
                   input_id_to_name_in_program;
             ret (kv.1, p))
      kwargs;
  call_f placeholder_args placeholder_kwargs.

(** Emission, persistence, registration and validation of a traced
    output that is an array or an array container. *)
Definition emit_and_validate (self_actx : SuiteGeneratingArraycontext)
    (args : list val) (kwargs : list (string * val))
    (arg_id_to_descr : descriptor) (output_template : container Array)
    : M state val :=
  let '(r, dict_of_named_arrays) :=
    rec_keyed_map_array_container _as_dict_of_named_arrays
      output_template [] in
  placeholder_out_template ← lift r;
  let inner_code_prg := generate_arraycontext_code dict_of_named_arrays in
  let host_code := host_code_of self_actx inner_code_prg in
  _ ← write_file (main_file_path self_actx) (FText host_code);
  _ ← rewrite_in_place (main_file_path self_actx) autoflake;
  _ ← rewrite_in_place (main_file_path self_actx) black;
  _ ← write_file (datawrappers_path self_actx)
        (FNpz (numpy_arrays_to_store inner_code_prg));
  let np_args := value_to_numpy <$> args in
  let np_kwargs := value_to_numpy <$> args in
  _ ← write_file (pickled_ref_input_args_path self_actx)
        (FPickle (PTuple [PTuple (PVal <$> np_args);
                          PTuple (PVal <$> np_kwargs)]));
  _ ← write_file (pickled_output_template_path self_actx)
        (FPickle (PVal (VArrays placeholder_out_template)));
  out ← call_f args kwargs;
  let ref_out := value_to_numpy out in
  _ ← write_file (pickled_ref_output_path self_actx)
        (FPickle (PVal ref_out));
  let compiled_func := exec_host_code self_actx inner_code_prg in
  _ ← modify (set_cache (insert arg_id_to_descr compiled_func));
  output ← call_compiled arg_id_to_descr args kwargs;
  if assert_allclose (value_to_numpy output) ref_out
  then ret output
  else raise (AssertionError "Not equal to tolerance").

(** The dict [dict_of_named_arrays] after the traversal of the traced
    output: the leaves under the names derived from their key tuples, in
    the order of the traversal. *)
Definition dict_of_named_arrays_of (output_template : container Array)
    : list (string * Array) :=
  foldl (λ d ka,
           dict_set ("_pt_out_" +:+ _ary_container_key_stringifier ka.1)
             ka.2 d)
        [] (keyed_leaves [] output_template).

(** Modelled from the spec: the flat result of the inner function that
    [.pytato_target] (not among the sources) generates from
    [dict_of_named_arrays].  Sections 2 and 4.3: the flattener records a
    mapping from names to nodes for the emitter and orders the named nodes
    lexicographically on the stringified keys; so the inner function returns
    one value for every name of the dict, in ascending order of the names.
    [output] holds the values of the nodes at the places of the nodes. *)
Definition flatten_values (output : container Array) : list Array :=
  (sorted fst (dict_of_named_arrays_of output)).*2.

(** The files after the five artifacts have been written, in the order
    in which [__call__] writes them. *)
Definition persisted_files (self_actx : SuiteGeneratingArraycontext)
    (args : list val) (ref_out : val) (output_template : container Array)
    (fs : gmap string file) : gmap string file :=
  let inner_code_prg :=
    generate_arraycontext_code (dict_of_named_arrays_of output_template) in
  let host_code := host_code_of self_actx inner_code_prg in
  let np_args := value_to_numpy <$> args in
  <[pickled_ref_output_path self_actx := FPickle (PVal ref_out)]>
    (<[pickled_output_template_path self_actx :=
         FPickle (PVal (VArrays (placeholder_out_template_of output_template)))]>
       (<[pickled_ref_input_args_path self_actx :=
            FPickle (PTuple [PTuple (PVal <$> np_args);
                             PTuple (PVal <$> np_args)])]>
          (<[datawrappers_path self_actx :=
               FNpz (numpy_arrays_to_store inner_code_prg)]>
             (<[main_file_path self_actx := FText (black (autoflake host_code))]>
                (<[main_file_path self_actx := FText (autoflake host_code)]>
                   (<[main_file_path self_actx := FText host_code]> fs)))))).

(** The state in which the freshly registered callable is called for
    validation. *)
Definition registered (self_actx : SuiteGeneratingArraycontext)
    (args : list val) (kwargs : list (string * val))
    (arg_id_to_descr : descriptor) (output_template : container Array)
    (st : state) : state :=
  {| program_cache :=
       <[arg_id_to_descr :=
           exec_host_code self_actx
             (generate_arraycontext_code
                (dict_of_named_arrays_of output_template))]>
         (program_cache st);
     files :=
       persisted_files self_actx args (value_to_numpy (f args kwargs))
         output_template (files st);
     f_calls := S (f_calls st) |}.

(** The part of [__call__] after the cache lookup has missed. *)
Definition compile_and_call (self_actx : SuiteGeneratingArraycontext)
    (args : list val) (kwargs : list (string * val))
    (arg_id_to_arg : bindings) (arg_id_to_descr : descriptor)
    : M state val :=
  output_template ← trace args kwargs arg_id_to_arg;
  match output_template with
  | VArrays output_template =>
      emit_and_validate self_actx args kwargs arg_id_to_descr output_template
  | _ =>
      raise (NotImplementedError
               "Function to be compiled did not return an array container or pt.Array")
  end.

(** [LazilyArraycontextCompilingFunctionCaller.__call__] *)
Definition __call__ (self_actx : SuiteGeneratingArraycontext)
    (args : list val) (kwargs : list (string * val)) : M state val :=
  extracted ← lift (_get_arg_id_to_arg_and_arg_id_to_descr args kwargs);
  let arg_id_to_arg : bindings := extracted.1 in
  let arg_id_to_descr : descriptor := extracted.2 in
  st ← get;
  match program_cache st !! arg_id_to_descr with
  | Some _ => call_compiled arg_id_to_descr [VBindings arg_id_to_arg] []
  | None =>
      compile_and_call self_actx args kwargs arg_id_to_arg arg_id_to_descr
  end.

(** *** The reader of the reference input in [measure.get_flop_rate] *)

(** [np_args, np_kwargs = pickle.load(fp)] followed by the first use of
    each: [np_args] is iterated over and [np_kwargs.values()] is called,
    which only a dict has. *)
Definition load_ref_input (o : pyobj)
    : exn + (list pyobj * list (string * pyobj)) :=
  match o with
  | PTuple [PTuple np_args; PDict np_kwargs] => inr (np_args, np_kwargs)
  | PTuple [_; _] => inl (AttributeError "values")
  | _ => inl (ValueError "cannot unpack")
  end.

End Codegen.


(** ** A small instance to run the model on

    Arrays that are a placeholder, a device buffer or a numpy buffer of
    integers; a user function that renames the two fields of a state, or
    returns a bare array as it is; two inner programs for it, a right one
    and one that returns zeros. *)

Inductive demo_buffer :=
| Symbolic (name : string)
| OnDevice (xs : list Z)
| InNumpy (xs : list Z).

Global Instance demo_buffer_eq_dec : EqDecision demo_buffer.
Proof. solve_decision. Defined.

Record demo_array := {
  demo_shape : list nat;
  demo_dtype : string;
  demo_data : demo_buffer;
}.

Global Instance demo_array_like : ArrayLike demo_array := {|
  shape := demo_shape;
  dtype := demo_dtype;
  make_placeholder := λ name s d,
    {| demo_shape := s; demo_dtype := d; demo_data := Symbolic name |};
|}.

Abbreviation demo_value := (value demo_array Z).

Definition demo_actx : SuiteGeneratingArraycontext := {|
  main_file_path := "/suite/main.py";
  datawrappers_path := "/suite/datawrappers.npz";
  pickled_ref_input_args_path := "/suite/ref_input_args.pkl";
  pickled_ref_output_path := "/suite/ref_output.pkl";
  pickled_output_template_path := "/suite/output_template.pkl";
|}.

Definition demo_device (xs : list Z) : demo_array :=
  {| demo_shape := [length xs]; demo_dtype := "float64";
     demo_data := OnDevice xs |}.

(** The user function: a state with the fields u and v becomes a result
    with the fields a and b; for a state of class StateB the fields are
    swapped; a bare array is returned as it is; anything else gives None. *)
Definition demo_f (args : list demo_value)
    (kwargs : list (string * demo_value)) : demo_value :=
  match args with
  | [VArrays (Node cls [(KStr "u", Leaf u); (KStr "v", Leaf v)])] =>
      if decide (cls = "StateB")
      then VArrays (Node "Result" [(KStr "a", Leaf v); (KStr "b", Leaf u)])
      else VArrays (Node "Result" [(KStr "a", Leaf u); (KStr "b", Leaf v)])
  | [VArrays (Leaf a)] => VArrays (Leaf a)
  | _ => VObject "NoneType"
  end.

(** The code generator: the function definition lists, for every output
    name, the placeholder it is computed from. *)
Definition demo_generate (dict_of_named_arrays : list (string * demo_array))
    : inner_code_prg (Array:=demo_array) (Ast:=string) :=
  {| import_statements := "import numpy as np";
     function_def :=
       String.concat ";"
         ((λ na, na.1 +:+ "="
                 +:+ match demo_data na.2 with
                     | Symbolic name => name
                     | _ => "const"
                     end) <$> dict_of_named_arrays);
     numpy_arrays_to_store := [] |}.

(** A right inner program for [demo_f] on a state of a class other than
    StateB or on a bare array, and a wrong one. *)
Definition demo_array_of (l : option (leaf demo_array Z)) : list demo_array :=
  match l with
  | Some (LArray a) => [a]
  | _ => []
  end.

Definition demo_inner (prg : inner_code_prg (Array:=demo_array) (Ast:=string))
    (npzfile : list (string * demo_array))
    (kwargs : gmap string (leaf demo_array Z)) : exn + list demo_array :=
  inr (demo_array_of (kwargs !! "_actx_in_0")
       ++ demo_array_of (kwargs !! "_actx_in_0_u")
       ++ demo_array_of (kwargs !! "_actx_in_0_v")).

Definition demo_inner_zeros
    (prg : inner_code_prg (Array:=demo_array) (Ast:=string))
    (npzfile : list (string * demo_array))
    (kwargs : gmap string (leaf demo_array Z)) : exn + list demo_array :=
  inr [demo_device [0; 0]%Z; demo_device [0; 0]%Z].

Definition demo_to_numpy (a : demo_array) : demo_array :=
  match demo_data a with
  | OnDevice xs =>
      {| demo_shape := demo_shape a; demo_dtype := demo_dtype a;
         demo_data := InNumpy xs |}
  | _ => a
  end.

Definition demo_buffers (v : demo_value) : list (list key * demo_buffer) :=
  match v with
  | VArrays c => (λ ka, (ka.1, demo_data ka.2)) <$> keyed_leaves [] c
  | _ => []
  end.

Definition demo_allclose (x y : demo_value) : bool :=
  bool_decide (demo_buffers x = demo_buffers y).

Definition demo_state0 : state (Array:=demo_array) (Scalar:=Z) (Ast:=string) :=
  {| program_cache := ∅; files := ∅; f_calls := 0 |}.

(** [__call__] of the instance, with the inner program left open. *)
Definition demo_call inner :=
  __call__ demo_generate id "" "" "" "" "" id id id id id id inner
    demo_to_numpy demo_allclose demo_f demo_actx.

Definition demo_state : list demo_value :=
  [VArrays (Node "StateA" [(KStr "u", Leaf (demo_device [1; 2]%Z));
                           (KStr "v", Leaf (demo_device [3; 4]%Z))])].

Definition demo_state' : list demo_value :=
  [VArrays (Node "StateA" [(KStr "u", Leaf (demo_device [5; 6]%Z));
                           (KStr "v", Leaf (demo_device [7; 8]%Z))])].

(** Whether a result is a value, and the value of a result, with a
    default for an exception. *)
Definition is_inr {E A} (r : E + A) : bool :=
  match r with inr _ => true | inl _ => false end.

Definition from_inr {E A} (d : A) (r : E + A) : A :=
  match r with inr a => a | inl _ => d end.

(** The state after the first, successful compilation on the instance. *)
Definition demo_state1 :=
  (demo_call demo_inner demo_state [] demo_state0).2.

(** More arguments for the instance: a keyword argument, two scalars, a
    bare array with the files and the callable of its compilation, and a
    nested output with its values. *)
Definition demo_kwargs : list (string * demo_value) :=
  [("t", VScalar "float64" 7%Z)].

Definition demo_nested_output : container demo_array :=
  Node "Fields"
    [(KStr "state",
      Node "State" [(KStr "u", Leaf (make_placeholder "u" [2] "float64"));
                    (KStr "v", Leaf (make_placeholder "v" [2] "float64"))]);
     (KStr "t", Leaf (make_placeholder "t" [] "float64"))].

Definition demo_nested_values : container demo_array :=
  Node "Fields"
    [(KStr "state",
      Node "State" [(KStr "u", Leaf (demo_device [1; 2]%Z));
                    (KStr "v", Leaf (demo_device [3; 4]%Z))]);
     (KStr "t", Leaf (demo_device [5]%Z))].

(** An output whose two leaves have different key tuples and the same
    name. *)
Definition demo_colliding_output : container demo_array :=
  Node "Out"
    [(KStr "a_b", Leaf (demo_device [1; 2]%Z));
     (KStr "a", Node "Inner" [(KStr "b", Leaf (demo_device [3; 4]%Z))])].




(** The descriptor of a call without keyword arguments. *)
Definition demo_descriptor (args : list demo_value) : descriptor :=
  (from_inr (∅, ∅) (_get_arg_id_to_arg_and_arg_id_to_descr args [])).2.


Definition demo_bare : list demo_value := [VArrays (Leaf (demo_device [9]%Z))].

Definition demo_bare_files :=
  files (demo_call demo_inner demo_bare [] demo_state0).2.

Definition demo_bare_compiled :
    compiled (Array:=demo_array) (Scalar:=Z) (Ast:=string) :=
  exec_host_code id demo_actx
    (demo_generate (dict_of_named_arrays_of (Leaf (demo_device [9]%Z)))).

(** * dg_benchmarks.measure *)

(** ** The warm-up and timing rounds of [get_flop_rate] *)

(** The world of a measurement, and how often the benchmark has been
    invoked in it. *)
Record bench (W : Type) := {
  bench_world : W;
  rhs_calls : nat;
}.
Arguments bench_world {W} _.
Arguments rhs_calls {W} _.

Section Measure.
Context {W T F R : Type}.

(** [time()] reads the clock of the world; [rhs_clbl] runs the benchmark
    on the loaded arguments, which are the same in every round. *)
Variable time : W → T * W.
Variable rhs_clbl : M W unit.

(** The arithmetic of the clock readings: the [0] that both accumulators
    start from, [+], [-], and [<] against an integer literal. *)
Variable t_zero : T.
Variables t_add t_sub : T → T → T.
Variable t_lt : T → Z → bool.

(** [(flops * i_timing) / t_rhs] *)
Variable rate : F → nat → T → exn + R.

Definition call_time : M (bench W) T :=
  λ st, let '(t, w) := time (bench_world st) in
        (inr t, {| bench_world := w; rhs_calls := rhs_calls st |}).

Definition call_rhs_clbl : M (bench W) unit :=
  λ st, let '(r, w) := rhs_clbl (bench_world st) in
        (r, {| bench_world := w; rhs_calls := S (rhs_calls st) |}).

(** [while i_warmup < 20 and t_warmup < 2: ...], with at most [fuel]
    rounds.  The counter grows by one in every round, so that 20 rounds are
    all there can be. *)
Fixpoint warmup_rounds (fuel : nat) (i_warmup : nat) (t_warmup : T)
    : M (bench W) (nat * T) :=
  match fuel with
  | 0 => ret (i_warmup, t_warmup)
  | S fuel =>
      if (i_warmup <? 20) && t_lt t_warmup 2
      then
        t_start ← call_time;
        _ ← call_rhs_clbl;
        t_end ← call_time;
        warmup_rounds fuel (i_warmup + 1)
          (t_add t_warmup (t_sub t_end t_start))
      else ret (i_warmup, t_warmup)
  end.

(** [while i_timing < 100 and t_rhs < 5: ...], with at most [fuel] rounds
    of 40 invocations.  The counter grows by 40 in every round, so that 3
    rounds are all there can be. *)
Fixpoint timing_rounds (fuel : nat) (i_timing : nat) (t_rhs : T)
    : M (bench W) (nat * T) :=
  match fuel with
  | 0 => ret (i_timing, t_rhs)
  | S fuel =>
      if (i_timing <? 100) && t_lt t_rhs 5
      then
        t_start ← call_time;
        _ ← for_each (λ _, call_rhs_clbl) (seq 0 40);
        t_end ← call_time;
        timing_rounds fuel (i_timing + 40) (t_add t_rhs (t_sub t_end t_start))
      else ret (i_timing, t_rhs)
  end.

(** The part of [get_flop_rate] after the arguments have been loaded: the
    warm-up rounds, the timing rounds and the rate. *)
Definition get_flop_rate_rounds (flops : F) : M (bench W) R :=
  _ ← warmup_rounds 20 0 t_zero;
  timed ← timing_rounds 3 0 t_zero;
  lift (rate flops timed.1 timed.2).

End Measure.

(** A clock in milliseconds that the benchmark advances by 700. *)
Definition demo_rhs_clbl : M Z unit := λ w, (inr tt, (w + 700)%Z).

Definition demo_rate (flops : Z) (i_timing : nat) (t_rhs : Z) : exn + Z :=
  inr (flops * Z.of_nat i_timing * 1000 / t_rhs)%Z.

Definition demo_rounds : M (bench Z) Z :=
  get_flop_rate_rounds (λ w, (w, w)) demo_rhs_clbl 0%Z Z.add Z.sub
    (λ t bound, (t <? 1000 * bound)%Z) demo_rate 1000000%Z.

(** * dg_benchmarks.run *)

(** [enumerate(l)], with the index as a number. *)
Definition enumerate_nat {A} (l : list A) : list (nat * A) :=
  imap (λ i a, (i, a)) l.

(** [sorted(l, key=key)] on integer keys: a stable insertion sort. *)
Fixpoint insert_on {A} (key : A → nat) (x : A) (l : list A) : list A :=
  match l with
  | [] => [x]
  | y :: rest =>
      if key x <=? key y then x :: y :: rest else y :: insert_on key x rest
  end.

Definition sorted_on {A} (key : A → nat) (l : list A) : list A :=
  foldr (insert_on key) [] l.

(** The world of a run, the table [flop_rate] with the cells that have
    been assigned, and the measurements made so far with their results, in
    the order in which they were made. *)
Record run_state (W actx_t R : Type) := {
  run_world : W;
  flop_rate : gmap (nat * nat * nat * nat) R;
  measured : list ((actx_t * string * Z * Z) * R);
}.
Arguments run_world {W actx_t R} _.
Arguments flop_rate {W actx_t R} _.
Arguments measured {W actx_t R} _.

Section Run.
Context {W actx_t R : Type}.

(** Classes are values, and [issubclass] is a relation between them. *)
Variable issubclass : actx_t → actx_t → bool.
Variables PytatoJAXArrayContext PytatoCUDAGraphArrayContext : actx_t.

Definition _get_actx_t_priority (actx_t0 : actx_t) : nat :=
  if issubclass actx_t0 PytatoJAXArrayContext then 9
  else if issubclass actx_t0 PytatoCUDAGraphArrayContext then 10
  else 1.

(** [get_flop_rate(actx_t, equation, dim, degree)] of [measure], in the
    world of the run. *)
Variable get_flop_rate : actx_t → string → Z → Z → M W R.

Definition call_get_flop_rate (actx_t0 : actx_t) (equation : string)
    (dim degree : Z) : M (run_state W actx_t R) R :=
  λ st,
    let '(r, w) := get_flop_rate actx_t0 equation dim degree (run_world st) in
    (r,
     {| run_world := w;
        flop_rate := flop_rate st;
        measured :=
          match r with
          | inr rate => measured st ++ [((actx_t0, equation, dim, degree), rate)]
          | inl _ => measured st
          end |}).

Definition set_flop_rate (g : gmap (nat * nat * nat * nat) R
                              → gmap (nat * nat * nat * nat) R)
    (st : run_state W actx_t R) : run_state W actx_t R :=
  {| run_world := run_world st; flop_rate := g (flop_rate st);
     measured := measured st |}.

(** The first loop nest of [main]: the table is created with no cell
    assigned, and every context, taken in the order of its priority, is
    measured on every dimension, equation and degree. *)
Definition main_flop_rate (equations : list string) (dims degrees : list Z)
    (actx_ts : list actx_t) : M (run_state W actx_t R) unit :=
  _ ← modify (set_flop_rate (λ _, ∅));
  for_each
    (λ '(iactx_t, actx_t0),
       for_each
         (λ '(idim, dim),
            for_each
              (λ '(iequation, equation),
                 for_each
                   (λ '(idegree, degree),
                      rate ← call_get_flop_rate actx_t0 equation dim degree;
                      modify
                        (set_flop_rate
                           (insert (iactx_t, idim, iequation, idegree) rate)))
                   (enumerate_nat degrees))
              (enumerate_nat equations))
         (enumerate_nat dims))
    (sorted_on (λ k, _get_actx_t_priority k.2) (enumerate_nat actx_ts)).

(** The cells that the loop nest assigns, each with the measurement
    whose result it is assigned, in the order of the loops. *)
Definition assignments (equations : list string) (dims degrees : list Z)
    (actx_ts : list actx_t)
    : list ((nat * nat * nat * nat) * (actx_t * string * Z * Z)) :=
  sorted_on (λ k, _get_actx_t_priority k.2) (enumerate_nat actx_ts)
  ≫= λ '(iactx_t, actx_t0),
  enumerate_nat dims ≫= λ '(idim, dim),
  enumerate_nat equations ≫= λ '(iequation, equation),
  enumerate_nat degrees ≫= λ '(idegree, degree),
  [((iactx_t, idim, iequation, idegree), (actx_t0, equation, dim, degree))].

(** Every combination of a context, an equation, a dimension and a
    degree, in the order of the arguments of [main]. *)
Definition combinations (equations : list string) (dims degrees : list Z)
    (actx_ts : list actx_t) : list (actx_t * string * Z * Z) :=
  actx_ts ≫= λ actx_t0,
  dims ≫= λ dim,
  equations ≫= λ equation,
  degrees ≫= λ degree,
  [(actx_t0, equation, dim, degree)].

End Run.

(** A world that counts the measurements, classes that are numbers, of
    which 1 is the JAX context and 2 the CUDA-graph context, and a
    measurement that returns the count, the class and the degree. *)
Definition demo_issubclass (a b : nat) : bool := bool_decide (a = b).

Definition demo_get_flop_rate (actx_t0 : nat) (equation : string)
    (dim degree : Z) : M nat (nat * nat * Z) :=
  λ w, (inr (w, actx_t0, degree), S w).

Definition demo_main :=
  main_flop_rate demo_issubclass 1 2 demo_get_flop_rate
    ["wave"; "euler"] [2; 3]%Z [1; 2; 3]%Z [1; 0; 2].

Definition demo_run0 : run_state nat nat (nat * nat * Z) :=
  {| run_world := 0; flop_rate := ∅; measured := [] |}.

(** ** The command line of [run.py] *)

(** [s.split(",")]: the pieces between the commas, empty ones included. *)
Fixpoint split_comma (s : string) : list string :=
  match s with
  | EmptyString => [EmptyString]
  | String c rest =>
      if decide (c = ","%char) then EmptyString :: split_comma rest
      else
        match split_comma rest with
        | piece :: pieces => String c piece :: pieces
        | [] => [String c EmptyString]
        end
  end.

(** The four classes that the command line can name. *)
Inductive actx_class :=
| PyOpenCLArrayContext
| EagerJAXArrayContext
| PytatoJAXArrayContext
| PytatoCUDAGraphArrayContext.

Global Instance actx_class_eq_dec : EqDecision actx_class.
Proof. solve_decision. Defined.

Definition _NAME_TO_ACTX_CLASS : list (string * actx_class) :=
  [("pyopencl", PyOpenCLArrayContext);
   ("jax:nojit", EagerJAXArrayContext);
   ("jax:jit", PytatoJAXArrayContext);
   ("cudagraph", PytatoCUDAGraphArrayContext)].

(** [d[k]] and [d.inv[v]] on a bidict. *)
Fixpoint getitem {K V} `{EqDecision K} (d : list (K * V)) (k : K) : exn + V :=
  match d with
  | [] => inl KeyError
  | (k', v) :: rest => if decide (k = k') then inr v else getitem rest k
  end.

Definition inv {K V} (d : list (K * V)) : list (V * K) :=
  (λ kv, (kv.2, kv.1)) <$> d.

(** [[_NAME_TO_ACTX_CLASS[k] for k in args.actxs.split(",")]], the
    argument [actx_ts] of [main]. *)
Definition actx_ts_of_actxs (actxs : string) : exn + list actx_class :=
  collect (getitem _NAME_TO_ACTX_CLASS) (split_comma actxs).

(** [[_NAME_TO_ACTX_CLASS.inv[actx_t] for actx_t in actx_ts]], the names
    that head the columns of the tables. *)
Definition column_names (actx_ts : list actx_class) : exn + list string :=
  collect (getitem (inv _NAME_TO_ACTX_CLASS)) actx_ts.

(** * Properties *)

(** ** Reasoning about the monad *)

Lemma bind_inr {S A B} (m : M S A) (k : A → M S B) s a s' :
  m s = (inr a, s') → bind m k s = k a s'.
Proof. intros Hm. unfold bind. by rewrite Hm. Qed.

Lemma bind_inl {S A B} (m : M S A) (k : A → M S B) s e s' :
  m s = (inl e, s') → bind m k s = (inl e, s').
Proof. intros Hm. unfold bind. by rewrite Hm. Qed.

(** ** Induction on containers *)

Section container_induction.
Context {A : Type} (P : container A → Prop).
Hypothesis HLeaf : ∀ a, P (Leaf a).
Hypothesis HNode :
  ∀ cls items, Forall (λ kv, P kv.2) items → P (Node cls items).

Fixpoint container_induction (c : container A) : P c :=
  match c with
  | Leaf a => HLeaf a
  | Node cls items =>
      HNode cls items
        ((fix go (l : list (key * container A)) : Forall (λ kv, P kv.2) l :=
            match l with
            | [] => @List.Forall_nil _ (λ kv, P kv.2)
            | kv :: rest =>
                @List.Forall_cons _ (λ kv, P kv.2) kv rest (container_induction kv.2) (go rest)
            end) items)
  end.
End container_induction.

Lemma rec_keyed_map_Node {S A B} (f : list key → A → M S B) keys cls items :
  rec_keyed_map f keys (Node cls items)
  = (items' ← rec_keyed_map_items f keys items; ret (Node cls items')).
Proof. reflexivity. Qed.

Lemma keyed_map_Node {A B} (g : list key → A → B) keys cls items :
  keyed_map g keys (Node cls items) = Node cls (keyed_map_items g keys items).
Proof. reflexivity. Qed.

Lemma keyed_leaves_Node {A} keys cls (items : list (key * container A)) :
  keyed_leaves keys (Node cls items) = keyed_leaves_items keys items.
Proof. reflexivity. Qed.

(** ** The traversal with a closure that does not raise *)

(** If on every leaf of the container the closure returns [g keys a] and
    updates the variables it closes over by [h keys a], the traversal
    returns the container mapped by [g], and the variables have been
    updated leaf by leaf in the order of [keyed_leaves]. *)
Lemma rec_keyed_map_pure {S A B} (f : list key → A → M S B)
    (g : list key → A → B) (h : list key → A → S → S) (c : container A) :
  ∀ keys s,
    (∀ k a s, (k, a) ∈ keyed_leaves keys c → f k a s = (inr (g k a), h k a s)) →
    rec_keyed_map f keys c s
    = (inr (keyed_map g keys c),
       foldl (λ s ka, h ka.1 ka.2 s) s (keyed_leaves keys c)).
Proof.
  induction c as [a|cls items IH] using container_induction; intros keys s Hf.
  - cbn. unfold bind. rewrite Hf by (cbn; left). reflexivity.
  - rewrite rec_keyed_map_Node, keyed_map_Node, keyed_leaves_Node.
    rewrite keyed_leaves_Node in Hf.
    enough (rec_keyed_map_items f keys items s
            = (inr (keyed_map_items g keys items),
               foldl (λ s ka, h ka.1 ka.2 s) s (keyed_leaves_items keys items)))
      as Hitems by (erewrite bind_inr by exact Hitems; reflexivity).
    revert s Hf. induction IH as [|[k sub] rest Hsub _ IHrest]; intros s Hf.
    + reflexivity.
    + cbn [rec_keyed_map_items keyed_map_items keyed_leaves_items] in *.
      fold (@rec_keyed_map_items S A B f keys rest).
      fold (@keyed_map_items A B g keys rest).
      fold (@keyed_leaves_items A keys rest) in *.
      erewrite bind_inr; last first.
      { apply Hsub. intros. apply Hf. apply elem_of_app. by left. }
      erewrite bind_inr; last first.
      { apply IHrest. intros. apply Hf. apply elem_of_app. by right. }
      rewrite foldl_app. reflexivity.
Qed.

(** ** The pure traversal *)

Lemma keyed_map_items_cons {A B} (g : list key → A → B) keys k sub rest :
  keyed_map_items g keys ((k, sub) :: rest)
  = (k, keyed_map g (keys ++ [k]) sub) :: keyed_map_items g keys rest.
Proof. reflexivity. Qed.

Lemma keyed_leaves_items_cons {A} keys k (sub : container A) rest :
  keyed_leaves_items keys ((k, sub) :: rest)
  = keyed_leaves (keys ++ [k]) sub ++ keyed_leaves_items keys rest.
Proof. reflexivity. Qed.

(** Mapping twice is mapping once. *)
Lemma keyed_map_keyed_map {A B C} (g1 : list key → A → B)
    (g2 : list key → B → C) (c : container A) :
  ∀ keys,
    keyed_map g2 keys (keyed_map g1 keys c)
    = keyed_map (λ k a, g2 k (g1 k a)) keys c.
Proof.
  induction c as [a|cls items IH] using container_induction; intros keys.
  - reflexivity.
  - rewrite !keyed_map_Node. f_equal.
    induction IH as [|[k sub] rest Hsub _ IHrest]; [reflexivity|].
    rewrite !keyed_map_items_cons. by rewrite Hsub, IHrest.
Qed.

(** Two functions that agree on the leaves map alike. *)
Lemma keyed_map_ext {A B} (g1 g2 : list key → A → B) (c : container A) :
  ∀ keys,
    (∀ k a, (k, a) ∈ keyed_leaves keys c → g1 k a = g2 k a) →
    keyed_map g1 keys c = keyed_map g2 keys c.
Proof.
  induction c as [a|cls items IH] using container_induction; intros keys Hg.
  - cbn. f_equal. apply Hg. cbn. left.
  - rewrite !keyed_map_Node. f_equal. rewrite keyed_leaves_Node in Hg.
    induction IH as [|[k sub] rest Hsub _ IHrest]; [reflexivity|].
    rewrite !keyed_map_items_cons. rewrite keyed_leaves_items_cons in Hg.
    f_equal; [f_equal|].
    + apply Hsub. intros. apply Hg, elem_of_app. by left.
    + apply IHrest. intros. apply Hg, elem_of_app. by right.
Qed.

(** A function that ignores the keys maps alike from any starting key
    tuple. *)
Lemma keyed_map_keys_irrel {A B} (g : A → B) (c : container A) :
  ∀ keys keys', keyed_map (λ _, g) keys c = keyed_map (λ _, g) keys' c.
Proof.
  induction c as [a|cls items IH] using container_induction;
    intros keys keys'.
  - reflexivity.
  - rewrite !keyed_map_Node. f_equal.
    induction IH as [|[k sub] rest Hsub _ IHrest]; [reflexivity|].
    rewrite !keyed_map_items_cons. f_equal; [f_equal|]; auto.
Qed.

(** Mapping keeps the shape of the container. *)
Lemma skeleton_keyed_map {A B} (g : list key → A → B) keys (c : container A) :
  skeleton (keyed_map g keys c) = skeleton c.
Proof.
  unfold skeleton.
  rewrite (keyed_map_keys_irrel (λ _, tt) (keyed_map g keys c) [] keys).
  rewrite keyed_map_keyed_map. apply keyed_map_keys_irrel.
Qed.

(** The leaves of a mapped container. *)
Lemma keyed_leaves_keyed_map {A B} (g : list key → A → B) (c : container A) :
  ∀ keys,
    keyed_leaves keys (keyed_map g keys c)
    = (λ ka, (ka.1, g ka.1 ka.2)) <$> keyed_leaves keys c.
Proof.
  induction c as [a|cls items IH] using container_induction; intros keys.
  - reflexivity.
  - rewrite keyed_map_Node, !keyed_leaves_Node.
    induction IH as [|[k sub] rest Hsub _ IHrest]; [reflexivity|].
    rewrite keyed_map_items_cons, !keyed_leaves_items_cons, fmap_app.
    by rewrite Hsub, IHrest.
Qed.

(** The key tuples of the leaves are a matter of shape only. *)
Lemma keyed_leaves_paths_skeleton {A B} (c1 : container A) (c2 : container B) :
  skeleton c1 = skeleton c2 →
  (keyed_leaves [] c1).*1 = (keyed_leaves [] c2).*1.
Proof.
  intros Hsk.
  assert (∀ X (c : container X),
            (keyed_leaves [] (skeleton c)).*1 = (keyed_leaves [] c).*1) as Hp.
  { intros X c. unfold skeleton. rewrite keyed_leaves_keyed_map.
    rewrite <- list_fmap_compose. reflexivity. }
  rewrite <- (Hp _ c1), <- (Hp _ c2). by rewrite Hsk.
Qed.

(** Putting back, at every key tuple, the leaf found there rebuilds the
    container. *)
Lemma keyed_map_rebuild {A B} (g : list key → A → B) (c : container A) :
  ∀ keys (vals : container B),
    keyed_map (λ _ _, tt) keys c = keyed_map (λ _ _, tt) keys vals →
    (∀ k a b, (k, b) ∈ keyed_leaves keys vals → g k a = b) →
    keyed_map g keys c = vals.
Proof.
  induction c as [a|cls items IH] using container_induction;
    intros keys vals Hsk Hv.
  - destruct vals as [b|]; [|discriminate]. cbn. f_equal. apply Hv. cbn. left.
  - destruct vals as [|cls' items']; [discriminate|].
    rewrite !keyed_map_Node in *. rewrite keyed_leaves_Node in Hv.
    injection Hsk as -> Hsk. f_equal.
    revert items' Hsk Hv.
    induction IH as [|[k sub] rest Hsub _ IHrest]; intros items' Hsk Hv.
    + destruct items' as [|[??]?]; [reflexivity|discriminate].
    + destruct items' as [|[k' sub'] rest']; [discriminate|].
      rewrite !keyed_map_items_cons in *.
      rewrite keyed_leaves_items_cons in Hv.
      injection Hsk as -> Hsub' Hrest'. f_equal; [f_equal|].
      * apply Hsub; [done|]. intros. apply Hv, elem_of_app. by left.
      * apply IHrest; [done|]. intros. apply Hv, elem_of_app. by right.
Qed.

(** ** Dicts built from pairs *)

Lemma dict_of_pairs_snoc `{Countable K} {V} (l : list (K * V)) k v :
  dict_of_pairs (l ++ [(k, v)]) = <[k := v]> (dict_of_pairs l).
Proof. unfold dict_of_pairs. by rewrite foldl_snoc. Qed.

(** With pairwise distinct keys the dict holds exactly the pairs. *)
Lemma lookup_dict_of_pairs `{Countable K} {V} (l : list (K * V)) k v :
  NoDup l.*1 → dict_of_pairs l !! k = Some v ↔ (k, v) ∈ l.
Proof.
  induction l as [|[k' v'] l IH] using rev_ind; intros Hnd.
  - unfold dict_of_pairs. cbn. rewrite lookup_empty. split; [done|].
    by intros ?%elem_of_nil.
  - rewrite dict_of_pairs_snoc.
    rewrite fmap_app in Hnd. apply NoDup_app in Hnd as (Hl & Hnotin & _).
    rewrite elem_of_app, list_elem_of_singleton.
    destruct (decide (k' = k)) as [->|Hne].
    + rewrite lookup_insert_eq. split.
      * intros [= ->]. by right.
      * intros [Hin|[= ->]]; [|done].
        exfalso. apply (Hnotin k); [|cbn; left].
        apply list_elem_of_fmap. by exists (k, v).
    + rewrite lookup_insert_ne by done. rewrite IH by done.
      split; [by left|]. intros [?|[= -> ->]]; [done|congruence].
Qed.

(** ** Sorting by a string key *)

Lemma insert_by_perm {A} (key : A → string) x (l : list A) :
  insert_by key x l ≡ₚ x :: l.
Proof.
  induction l as [|y l IH]; cbn; [done|].
  destruct (String.leb (key x) (key y)); [done|].
  rewrite IH. apply Permutation_swap.
Qed.

Lemma sorted_perm {A} (key : A → string) (l : list A) : sorted key l ≡ₚ l.
Proof.
  induction l as [|x l IH]; cbn; [done|].
  rewrite insert_by_perm. by rewrite IH.
Qed.

Lemma insert_by_HdRel {A} (key : A → string) a x (l : list A) :
  key_le key a x → HdRel (key_le key) a l →
  HdRel (key_le key) a (insert_by key x l).
Proof.
  intros Hax Hal. destruct l as [|y l]; cbn; [by constructor|].
  destruct (String.leb (key x) (key y)); constructor; [done|].
  by inversion Hal.
Qed.

Lemma insert_by_Sorted {A} (key : A → string) x (l : list A) :
  Sorted (key_le key) l → Sorted (key_le key) (insert_by key x l).
Proof.
  induction 1 as [|y l Hl IH Hhd]; cbn; [by repeat constructor|].
  destruct (String.leb (key x) (key y)) eqn:Hxy.
  - constructor; [by constructor|]. by constructor.
  - constructor; [done|]. apply insert_by_HdRel; [|done].
    unfold key_le. destruct (String.leb_total (key x) (key y)); congruence.
Qed.

Lemma sorted_Sorted {A} (key : A → string) (l : list A) :
  Sorted (key_le key) (sorted key l).
Proof.
  induction l as [|x l IH]; cbn; [constructor|]. by apply insert_by_Sorted.
Qed.

(** ** The order of strings *)

Lemma string_compare_Lt_trans (s1 s2 s3 : string) :
  String.compare s1 s2 = Lt → String.compare s2 s3 = Lt →
  String.compare s1 s3 = Lt.
Proof.
  revert s2 s3. induction s1 as [|c1 s1 IH]; intros [|c2 s2] [|c3 s3];
    cbn; try done.
  unfold Ascii.compare.
  destruct (N.compare_spec (N_of_ascii c1) (N_of_ascii c2)) as [H12|H12|H12];
    destruct (N.compare_spec (N_of_ascii c2) (N_of_ascii c3)) as [H23|H23|H23];
    try done; intros Hs12 Hs23;
    destruct (N.compare_spec (N_of_ascii c1) (N_of_ascii c3)) as [H13|H13|H13];
    try done; try lia.
  by apply (IH s2).
Qed.

Lemma string_leb_trans (s1 s2 s3 : string) :
  String.leb s1 s2 = true → String.leb s2 s3 = true →
  String.leb s1 s3 = true.
Proof.
  unfold String.leb.
  destruct (String.compare s1 s2) eqn:H12; [| |done].
  - apply String.compare_eq_iff in H12 as ->. done.
  - destruct (String.compare s2 s3) eqn:H23; [| |done].
    + apply String.compare_eq_iff in H23 as <-. by rewrite H12.
    + by rewrite (string_compare_Lt_trans _ _ _ H12 H23).
Qed.

Lemma string_leb_append (p s1 s2 : string) :
  String.leb (p +:+ s1) (p +:+ s2) = String.leb s1 s2.
Proof.
  unfold String.leb.
  assert (String.compare (p +:+ s1) (p +:+ s2) = String.compare s1 s2) as ->;
    [|done].
  induction p as [|c p IH]; [done|].
  change (String.compare (String c (p +:+ s1)) (String c (p +:+ s2))
          = String.compare s1 s2).
  cbn [String.compare]. unfold Ascii.compare. by rewrite N.compare_refl.
Qed.

Lemma string_append_inj (p s1 s2 : string) : p +:+ s1 = p +:+ s2 → s1 = s2.
Proof.
  induction p as [|c p IH]; [done|].
  change (String c (p +:+ s1) = String c (p +:+ s2) → s1 = s2).
  intros [= ?]. by apply IH.
Qed.

Lemma key_le_id_trans : Transitive (key_le (A:=string) id).
Proof. intros s1 s2 s3. apply string_leb_trans. Qed.

Lemma key_le_id_antisym : AntiSymm (=) (key_le (A:=string) id).
Proof. intros s1 s2. apply String.leb_antisym. Qed.

(** ** Sorting under two keys *)

Lemma insert_by_fmap {A B} (g : A → B) (key : B → string) x (l : list A) :
  g <$> insert_by (key ∘ g) x l = insert_by key (g x) (g <$> l).
Proof.
  induction l as [|y l IH]; [done|]. cbn.
  destruct (String.leb (key (g x)) (key (g y))); [done|].
  cbn. by rewrite IH.
Qed.

Lemma sorted_fmap {A B} (g : A → B) (key : B → string) (l : list A) :
  g <$> sorted (key ∘ g) l = sorted key (g <$> l).
Proof.
  induction l as [|x l IH]; [done|].
  change (g <$> insert_by (key ∘ g) x (sorted (key ∘ g) l)
          = insert_by key (g x) (sorted key (g <$> l))).
  by rewrite insert_by_fmap, IH.
Qed.

Lemma sorted_fmap_id {A} (g : A → string) (l : list A) :
  g <$> sorted g l = sorted id (g <$> l).
Proof. apply (sorted_fmap g id). Qed.

Lemma sorted_ext {A} (key1 key2 : A → string) (l : list A) :
  (∀ a b, String.leb (key1 a) (key1 b) = String.leb (key2 a) (key2 b)) →
  sorted key1 l = sorted key2 l.
Proof.
  intros Hkey. induction l as [|x l IH]; [done|].
  change (insert_by key1 x (sorted key1 l) = insert_by key2 x (sorted key2 l)).
  rewrite IH. generalize (sorted key2 l). intros l'.
  induction l' as [|y l' IH']; [done|]. cbn.
  rewrite Hkey. destruct (String.leb _ _); [done|]. by rewrite IH'.
Qed.

(** The sorted list of the names is the same whichever list of them is
    sorted. *)
Lemma sorted_names_unique (l1 l2 : list string) :
  l1 ≡ₚ l2 → sorted id l1 = sorted id l2.
Proof.
  intros Hperm.
  pose proof key_le_id_trans. pose proof key_le_id_antisym.
  apply (Sorted_unique (key_le id)).
  - apply sorted_Sorted.
  - apply sorted_Sorted.
  - by rewrite !sorted_perm.
Qed.

(** ** The dict of the named arrays *)

Lemma dict_set_fresh {V} (k : string) (v : V) (d : list (string * V)) :
  k ∉ d.*1 → dict_set k v d = d ++ [(k, v)].
Proof.
  induction d as [|[k' v'] d IH]; [done|]. cbn.
  intros [Hne Hk]%not_elem_of_cons.
  rewrite decide_False by done. by rewrite IH.
Qed.

Lemma NoDup_fmap_inj_on {A B} (g : A → B) (l : list A) x y :
  NoDup (g <$> l) → x ∈ l → y ∈ l → g x = g y → x = y.
Proof.
  induction l as [|a l IH]; [by intros _ ?%elem_of_nil|].
  rewrite fmap_cons. intros [Ha Hl]%NoDup_cons.
  intros [->|Hx]%elem_of_cons [->|Hy]%elem_of_cons Heq; [done| | |by apply IH].
  - exfalso. apply Ha. rewrite Heq. by apply list_elem_of_fmap_2.
  - exfalso. apply Ha. rewrite <- Heq. by apply list_elem_of_fmap_2.
Qed.

(** ** Positions in the output template *)

Section Positions.
Context {Array : Type}.
Implicit Types output_template : container Array.

(** The set collected by the closure of
    [_get_key_to_pos_in_output_template] is the set of the key tuples of
    the leaves. *)
Lemma output_keys_of_leaves output_template :
  output_keys_of output_template
  = list_to_set (keyed_leaves [] output_template).*1.
Proof.
  unfold output_keys_of, rec_keyed_map_array_container.
  rewrite (rec_keyed_map_pure _ (λ _ a, a) (λ k _ s, s ∪ {[k]}))
    by reflexivity.
  cbn [snd]. generalize (keyed_leaves [] output_template).
  enough (∀ (l : list (list key * Array)) (s : gset (list key)),
            foldl (λ s ka, s ∪ {[ka.1]}) s l = s ∪ list_to_set l.*1) as Hl.
  { intros l. rewrite Hl. by rewrite (left_id_L ∅ (∪)). }
  induction l as [|ka l IH]; intros s; cbn.
  - by rewrite (right_id_L ∅ (∪)).
  - rewrite IH. by rewrite (assoc_L (∪)).
Qed.

Lemma sorted_output_keys_elem output_template k :
  k ∈ sorted_output_keys output_template
  ↔ k ∈ (keyed_leaves [] output_template).*1.
Proof.
  unfold sorted_output_keys. rewrite sorted_perm, elem_of_elements.
  by rewrite output_keys_of_leaves, elem_of_list_to_set.
Qed.

Lemma sorted_output_keys_NoDup output_template :
  NoDup (sorted_output_keys output_template).
Proof.
  unfold sorted_output_keys. rewrite sorted_perm. apply NoDup_elements.
Qed.

Lemma sorted_output_keys_length output_template :
  length (sorted_output_keys output_template)
  = size (output_keys_of output_template).
Proof. unfold sorted_output_keys. by rewrite sorted_perm. Qed.

(** A key tuple is mapped to its index in the sorted list. *)
Lemma lookup_key_to_pos output_template k i :
  _get_key_to_pos_in_output_template output_template !! k = Some i
  ↔ sorted_output_keys output_template !! i = Some k.
Proof.
  unfold _get_key_to_pos_in_output_template.
  pose proof (sorted_output_keys_NoDup output_template) as Hnd.
  set (ks := sorted_output_keys output_template) in *.
  rewrite lookup_dict_of_pairs.
  - rewrite elem_of_lookup_imap. split.
    + intros (j & k' & [= -> ->] & Hj). done.
    + intros Hi. by exists i, k.
  - replace ((imap (λ i output_key, (output_key, i)) ks).*1) with ks; [done|].
    apply list_eq. intros j.
    rewrite list_lookup_fmap, list_lookup_imap.
    by destruct (ks !! j).
Qed.

(** C6. The positions of the output template are the indices of the
    leaves' key tuples in the list sorted by their stringification, in
    lexicographic order of the strings; a mapping with the keys a and b
    gets the positions 0 and 1, in whichever order it is serialized. *)
Theorem output_positions_sorted_by_stringified_key :
  (∀ output_template,
     let ks := sorted_output_keys output_template in
     (∀ k, k ∈ ks ↔ k ∈ (keyed_leaves [] output_template).*1)
     ∧ NoDup ks
     ∧ Sorted (key_le _ary_container_key_stringifier) ks
     ∧ ∀ k i,
         _get_key_to_pos_in_output_template output_template !! k = Some i
         ↔ ks !! i = Some k)
  ∧ (∀ cls (x y : Array),
       _get_key_to_pos_in_output_template
         (Node cls [(KStr "a", Leaf x); (KStr "b", Leaf y)])
       = {[ [KStr "a"] := 0; [KStr "b"] := 1 ]}
       ∧ _get_key_to_pos_in_output_template
           (Node cls [(KStr "b", Leaf y); (KStr "a", Leaf x)])
         = {[ [KStr "a"] := 0; [KStr "b"] := 1 ]}).
Proof.
  split.
  - intros output_template ks. repeat split.
    + apply sorted_output_keys_elem.
    + apply sorted_output_keys_elem.
    + apply sorted_output_keys_NoDup.
    + apply sorted_Sorted.
    + apply lookup_key_to_pos.
    + apply lookup_key_to_pos.
  - intros cls x y. split; vm_compute; reflexivity.
Qed.
End Positions.

(** ** Reassembling the output *)

Lemma omap_lookup_total {A B} (g : A → option B) (l : list A) :
  (∀ x, x ∈ l → is_Some (g x)) → ∀ i, omap g l !! i = l !! i ≫= g.
Proof.
  induction l as [|x l IH]; intros Hg i; [done|].
  cbn [omap list_omap]. destruct (Hg x) as [y Hy]; [left|]. rewrite Hy.
  destruct i as [|i]; cbn; [done|].
  apply IH. intros. apply Hg. by right.
Qed.

Section Assemble.
Context {Array Scalar : Type} `{!ArrayLike Array}.
Implicit Types output values : container Array.

Lemma sorted_output_keys_skeleton output values :
  skeleton values = skeleton output →
  sorted_output_keys values = sorted_output_keys output.
Proof.
  intros Hsk. unfold sorted_output_keys.
  by rewrite !output_keys_of_leaves, (keyed_leaves_paths_skeleton _ _ Hsk).
Qed.

Lemma dict_of_named_arrays_of_distinct values :
  NoDup (_ary_container_key_stringifier <$> (keyed_leaves [] values).*1) →
  dict_of_named_arrays_of values
  = (λ ka, ("_pt_out_" +:+ _ary_container_key_stringifier ka.1, ka.2))
      <$> keyed_leaves [] values.
Proof.
  unfold dict_of_named_arrays_of.
  generalize (keyed_leaves [] values). intros l.
  induction l as [|[k a] l IH] using rev_ind; [done|].
  rewrite !fmap_app, foldl_app. cbn.
  intros (Hl & Hk & _)%NoDup_app. rewrite IH by done.
  rewrite dict_set_fresh; [done|].
  rewrite <- list_fmap_compose.
  intros ([k' a'] & Heq%string_append_inj & Hin)%list_elem_of_fmap.
  cbn in Heq. apply (Hk (_ary_container_key_stringifier k')).
  - rewrite <- list_fmap_compose. apply list_elem_of_fmap. by exists (k', a').
  - rewrite Heq. left.
Qed.

(** With pairwise different names, the flat result holds at the position
    of a key tuple the value of the leaf under that key tuple. *)
Lemma flatten_values_lookup values i k :
  NoDup (_ary_container_key_stringifier <$> (keyed_leaves [] values).*1) →
  sorted_output_keys values !! i = Some k →
  flatten_values values !! i
  = (list_to_map (keyed_leaves [] values) : gmap (list key) Array) !! k.
Proof.
  intros Hnd Hi.
  set (name := λ k : list key,
         "_pt_out_" +:+ _ary_container_key_stringifier k).
  set (L := keyed_leaves [] values) in *.
  assert (NoDup L.*1) as HndL by (by apply NoDup_fmap_1 in Hnd).
  assert ((sorted fst (dict_of_named_arrays_of values)).*1
          = name <$> sorted_output_keys values) as Hnames.
  { rewrite (dict_of_named_arrays_of_distinct values Hnd). fold L.
    rewrite sorted_fmap_id.
    unfold sorted_output_keys. rewrite output_keys_of_leaves. fold L.
    rewrite (sorted_ext _ary_container_key_stringifier name)
      by (intros; unfold name; by rewrite string_leb_append).
    rewrite sorted_fmap_id.
    apply sorted_names_unique.
    rewrite <- list_fmap_compose.
    rewrite (elements_list_to_set L.*1 HndL).
    by rewrite <- list_fmap_compose. }
  unfold flatten_values. rewrite list_lookup_fmap.
  assert ((sorted fst (dict_of_named_arrays_of values)).*1 !! i
          = Some (name k)) as Hname
    by (by rewrite Hnames, list_lookup_fmap, Hi).
  rewrite list_lookup_fmap in Hname.
  destruct (sorted fst (dict_of_named_arrays_of values) !! i)
    as [[n v]|] eqn:Hnv; [|done].
  injection Hname as ->. cbn.
  apply list_elem_of_lookup_2 in Hnv. rewrite sorted_perm in Hnv.
  rewrite (dict_of_named_arrays_of_distinct values Hnd) in Hnv. fold L in Hnv.
  apply list_elem_of_fmap in Hnv as ([k' v'] & Heq & Hin).
  pose proof (f_equal fst Heq) as Hn. pose proof (f_equal snd Heq) as Hv.
  cbn [fst snd] in Hn, Hv. subst v. clear Heq.
  assert (k ∈ L.*1) as Hk.
  { apply sorted_output_keys_elem. by eapply list_elem_of_lookup_2. }
  assert (k' = k) as ->.
  { apply (NoDup_fmap_inj_on _ary_container_key_stringifier L.*1);
      [done| |done|].
    - apply list_elem_of_fmap. by exists (k', v').
    - symmetry. by apply (string_append_inj "_pt_out_"). }
  symmetry. by apply elem_of_list_to_map.
Qed.

Lemma to_output_template_picked {S : Type}
    (keys_to_pos : gmap (list key) nat) (flat : list Array)
    (keys : list key) (a : Array) (s : S) :
  is_Some (keys_to_pos !! keys ≫= λ pos, flat !! pos) →
  to_output_template keys_to_pos flat keys a s
  = (inr (picked keys_to_pos flat keys a), s).
Proof.
  unfold to_output_template, picked. intros [x Hx].
  destruct (keys_to_pos !! keys) as [pos|]; [|done]. cbn in *.
  rewrite Hx. reflexivity.
Qed.

(** Every leaf of a container with the shape of [values] finds its
    position inside the flat sequence of [values], when the names are
    pairwise different. *)
Lemma flat_position_found output values k :
  skeleton values = skeleton output →
  NoDup (_ary_container_key_stringifier <$> (keyed_leaves [] values).*1) →
  k ∈ (keyed_leaves [] output).*1 →
  ∃ i, _get_key_to_pos_in_output_template output !! k = Some i
       ∧ flatten_values values !! i
         = (list_to_map (keyed_leaves [] values)
              : gmap (list key) Array) !! k
       ∧ is_Some (flatten_values values !! i).
Proof.
  intros Hsk Hnd Hk.
  pose proof Hk as Hk'. apply sorted_output_keys_elem in Hk'.
  apply list_elem_of_lookup in Hk' as [i Hi].
  exists i. rewrite lookup_key_to_pos.
  assert (flatten_values values !! i
          = (list_to_map (keyed_leaves [] values)
               : gmap (list key) Array) !! k) as Hflat.
  { apply flatten_values_lookup; [done|].
    by rewrite (sorted_output_keys_skeleton _ _ Hsk). }
  split_and!; [done|done|].
  rewrite Hflat.
  destruct (list_to_map _ !! k) eqn:Hnone; [done|].
  apply not_elem_of_list_to_map in Hnone.
  by rewrite (keyed_leaves_paths_skeleton _ _ Hsk) in Hnone.
Qed.

(** C7. When no two leaves of the traced output have the same name, that
    is, when the stringified key tuples of the leaves are pairwise
    different, reassembling the flat result of the inner function through
    the pickled output template gives back the container of the values: the
    classes and keys of the traced output at any depth of nesting, and every
    value at its own place. *)
Theorem output_template_round_trip {S : Type} output values (s : S) :
  skeleton values = skeleton output →
  NoDup (_ary_container_key_stringifier <$> (keyed_leaves [] output).*1) →
  ∃ r,
    assemble_output (Scalar:=Scalar)
      (PVal (VArrays (placeholder_out_template_of output)))
      (flatten_values values) s
    = (inr (VArrays r), s)
    ∧ skeleton r = skeleton output
    ∧ r = values.
Proof.
  intros Hsk Hnames.
  assert (NoDup (keyed_leaves [] output).*1) as Hnd
    by (by apply NoDup_fmap_1 in Hnames).
  set (tpl := placeholder_out_template_of output).
  assert (skeleton tpl = skeleton output) as Htpl
    by apply skeleton_keyed_map.
  assert (skeleton values = skeleton tpl) as Hvt by congruence.
  assert (NoDup (_ary_container_key_stringifier
                   <$> (keyed_leaves [] values).*1)) as Hnames'
    by (by rewrite (keyed_leaves_paths_skeleton _ _ Hsk)).
  set (pos := _get_key_to_pos_in_output_template tpl).
  set (flat := flatten_values values).
  assert (∀ k, k ∈ (keyed_leaves [] tpl).*1 →
               is_Some (pos !! k ≫= λ i, flat !! i)) as Hfound.
  { intros k Hk.
    destruct (flat_position_found tpl values k Hvt Hnames' Hk)
      as (i & Hi & _ & Hsome).
    subst pos. rewrite Hi. exact Hsome. }
  assert (keyed_map (picked pos flat) [] tpl = values) as Hvalues.
  { apply keyed_map_rebuild; [by symmetry|].
    intros k a b Hkb.
    assert (k ∈ (keyed_leaves [] tpl).*1) as Hk.
    { rewrite <- (keyed_leaves_paths_skeleton _ _ Hvt).
      apply list_elem_of_fmap. by exists (k, b). }
    destruct (flat_position_found tpl values k Hvt Hnames' Hk)
      as (i & Hi & Hflat & _).
    unfold picked. subst pos flat. rewrite Hi. cbn. rewrite Hflat.
    rewrite (proj1 (elem_of_list_to_map _ k b
                      ltac:(by rewrite (keyed_leaves_paths_skeleton _ _ Hsk)))
               Hkb).
    reflexivity. }
  destruct output as [a|cls items].
  - (* a single array *)
    destruct values as [v|]; [|discriminate].
    exists (Leaf v). split; [reflexivity|]. split; [reflexivity|done].
  - (* an array container *)
    exists (keyed_map (picked pos flat) [] tpl).
    split; [|split; [|exact Hvalues]].
    + subst tpl. unfold placeholder_out_template_of in *.
      rewrite keyed_map_Node in *. cbn [assemble_output].
      erewrite bind_inr; [reflexivity|].
      unfold rec_keyed_map_array_container.
      rewrite (rec_keyed_map_pure _ (picked pos flat) (λ _ _ s, s)).
      * f_equal. generalize (keyed_leaves [] (Node cls
          (keyed_map_items
             (λ keys ary,
                make_placeholder
                  ("_pt_out_" +:+ _ary_container_key_stringifier keys)
                  (shape ary) (dtype ary)) [] items))).
        intros l. induction l; [done|]. done.
      * intros k a s' Hka. apply to_output_template_picked.
        apply Hfound. apply list_elem_of_fmap. by exists (k, a).
    + rewrite skeleton_keyed_map. exact Htpl.
Qed.
End Assemble.

(** ** Closures that close over nothing *)

(** A closure that returns or raises without touching the state makes a
    traversal that does the same, with the result of [traverse]. *)
Lemma rec_keyed_map_stateless {S A B} (g : list key → A → M S B)
    (G : list key → A → exn + B) (c : container A) :
  (∀ k a s, g k a s = (G k a, s)) →
  ∀ keys s, rec_keyed_map g keys c s = (traverse G keys c, s).
Proof.
  intros Hg. unfold traverse.
  induction c as [a|cls items IH] using container_induction; intros keys s.
  - cbn. unfold bind, lift. rewrite Hg. by destruct (G keys a).
  - rewrite !rec_keyed_map_Node.
    enough (∀ s, rec_keyed_map_items g keys items s
                 = ((rec_keyed_map_items (S:=unit) (λ k a, lift (G k a))
                       keys items tt).1, s)) as Hitems.
    { unfold bind. rewrite Hitems.
      by destruct (rec_keyed_map_items _ keys items tt) as [[e|x] []]. }
    induction IH as [|[k sub] rest Hsub _ IHrest]; intros s'; [done|].
    cbn [rec_keyed_map_items].
    fold (@rec_keyed_map_items S A B g keys rest).
    fold (@rec_keyed_map_items unit A B (λ k a, lift (G k a)) keys rest).
    cbn [snd] in Hsub. unfold bind. rewrite Hsub.
    destruct (rec_keyed_map _ (keys ++ [k]) sub tt) as [[e|x] []]; [done|].
    cbn [fst]. rewrite IHrest.
    by destruct (rec_keyed_map_items _ keys rest tt) as [[e|xs] []].
Qed.

Lemma list_comprehension_stateless {S X Y} (body : X → M S Y)
    (G : X → exn + Y) (l : list X) :
  (∀ x s, body x s = (G x, s)) →
  ∀ s, list_comprehension body l s = (collect G l, s).
Proof.
  intros Hbody. unfold collect. induction l as [|x l IH]; intros s; [done|].
  cbn. unfold bind. rewrite Hbody. unfold lift at 1.
  destruct (G x) as [e|y]; [done|].
  rewrite IH.
  by destruct (list_comprehension _ l tt) as [[e|ys] []].
Qed.

(** ** The caller *)

Section Caller.
Context {Array Scalar : Type} `{!ArrayLike Array} {Ast : Type}.
Variable generate_arraycontext_code :
  list (string * Array) → inner_code_prg (Array:=Array) (Ast:=Ast).
Variable unparse : Ast → string.
Variables host0 host1 host2 host3 host4 : string.
Variables re_sub_indent remove_common_indentation autoflake black
  : string → string.
Variables relpath join_dg_benchmarks_path : string → string.
Variable compiled_rhs_inner :
  inner_code_prg (Array:=Array) (Ast:=Ast) → list (string * Array)
  → gmap string (leaf Array Scalar) → exn + list Array.
Variable to_numpy : Array → Array.
Variable assert_allclose : value Array Scalar → value Array Scalar → bool.
Variable f :
  list (value Array Scalar) → list (string * value Array Scalar)
  → value Array Scalar.

Abbreviation rhs' := (rhs join_dg_benchmarks_path compiled_rhs_inner).
Abbreviation call_compiled' :=
  (call_compiled join_dg_benchmarks_path compiled_rhs_inner).
Abbreviation trace' := (trace (Ast:=Ast) f).
Abbreviation host_code_of' :=
  (host_code_of unparse host0 host1 host2 host3 host4 re_sub_indent
     remove_common_indentation relpath).
Abbreviation persisted_files' :=
  (persisted_files generate_arraycontext_code unparse host0 host1 host2
     host3 host4 re_sub_indent remove_common_indentation autoflake black
     relpath to_numpy).
Abbreviation registered' :=
  (registered generate_arraycontext_code unparse host0 host1 host2 host3
     host4 re_sub_indent remove_common_indentation autoflake black relpath
     to_numpy f).
Abbreviation emit_and_validate' :=
  (emit_and_validate generate_arraycontext_code unparse host0 host1 host2
     host3 host4 re_sub_indent remove_common_indentation autoflake black
     relpath join_dg_benchmarks_path compiled_rhs_inner to_numpy
     assert_allclose f).
Abbreviation compile_and_call' :=
  (compile_and_call generate_arraycontext_code unparse host0 host1 host2
     host3 host4 re_sub_indent remove_common_indentation autoflake black
     relpath join_dg_benchmarks_path compiled_rhs_inner to_numpy
     assert_allclose f).
Abbreviation call' :=
  (__call__ generate_arraycontext_code unparse host0 host1 host2
     host3 host4 re_sub_indent remove_common_indentation autoflake black
     relpath join_dg_benchmarks_path compiled_rhs_inner to_numpy
     assert_allclose f).

Implicit Types st : state (Array:=Array) (Scalar:=Scalar) (Ast:=Ast).
Implicit Types args : list (value Array Scalar).
Implicit Types kwargs : list (string * value Array Scalar).

(** The traversal with [_as_dict_of_named_arrays]. *)
Lemma as_dict_of_named_arrays_traversal (output_template : container Array) :
  rec_keyed_map_array_container _as_dict_of_named_arrays output_template []
  = (inr (placeholder_out_template_of output_template),
     dict_of_named_arrays_of output_template).
Proof.
  unfold rec_keyed_map_array_container, placeholder_out_template_of,
    dict_of_named_arrays_of.
  by rewrite (rec_keyed_map_pure _
                (λ keys ary,
                   make_placeholder
                     ("_pt_out_" +:+ _ary_container_key_stringifier keys)
                     (shape ary) (dtype ary))
                (λ keys ary,
                   dict_set
                     ("_pt_out_" +:+ _ary_container_key_stringifier keys)
                     ary)).
Qed.

(** Once the traced output is at hand, [__call__] writes the five
    artifacts, computes the reference output, registers the callable, and
    only then calls it and compares. *)
Lemma emit_and_validate_registered self_actx args kwargs d
    (output_template : container Array) st :
  emit_and_validate' self_actx args kwargs d output_template st
  = match call_compiled' d args kwargs
            (registered' self_actx args kwargs d output_template st) with
    | (inl e, st') => (inl e, st')
    | (inr output, st') =>
        if assert_allclose (value_to_numpy to_numpy output)
             (value_to_numpy to_numpy (f args kwargs))
        then (inr output, st')
        else (inl (AssertionError "Not equal to tolerance"), st')
    end.
Proof.
  unfold emit_and_validate.
  rewrite as_dict_of_named_arrays_traversal.
  unfold bind at 1. unfold lift at 1.
  unfold bind at 1. unfold write_file at 1, modify at 1.
  unfold bind at 1. unfold rewrite_in_place at 1.
  unfold bind at 1, get at 1. cbn [files set_files].
  rewrite lookup_insert_eq.
  unfold write_file at 1, modify at 1.
  unfold bind at 1. unfold rewrite_in_place at 1.
  unfold bind at 1, get at 1. cbn [files set_files].
  rewrite lookup_insert_eq.
  unfold write_file at 1, modify at 1.
  unfold registered, persisted_files.
  cbv [bind write_file modify call_f ret raise set_files set_cache
         count_f_call files program_cache f_calls].
  match goal with
  | |- match ?c with _ => _ end = _ => destruct c as [[e|output] st']
  end; [reflexivity|].
  by destruct (assert_allclose _ _).
Qed.

(** *** Unfolding [__call__] *)

Lemma call_unfold self_actx args kwargs st :
  call' self_actx args kwargs st
  = match _get_arg_id_to_arg_and_arg_id_to_descr args kwargs with
    | inl e => (inl e, st)
    | inr extracted =>
        match program_cache st !! extracted.2 with
        | Some _ =>
            call_compiled' extracted.2 [VBindings extracted.1] [] st
        | None =>
            compile_and_call' self_actx args kwargs extracted.1
              extracted.2 st
        end
    end.
Proof.
  unfold __call__, bind, lift, get.
  destruct (_get_arg_id_to_arg_and_arg_id_to_descr args kwargs)
    as [e|extracted]; [reflexivity|].
  cbn. by destruct (program_cache st !! extracted.2).
Qed.

Lemma compile_and_call_unfold self_actx args kwargs m d st :
  compile_and_call' self_actx args kwargs m d st
  = match trace' args kwargs m st with
    | (inl e, st1) => (inl e, st1)
    | (inr (VArrays output_template), st1) =>
        emit_and_validate' self_actx args kwargs d output_template st1
    | (inr _, st1) =>
        (inl (NotImplementedError
                "Function to be compiled did not return an array container or pt.Array"),
         st1)
    end.
Proof.
  unfold compile_and_call, bind.
  destruct (trace' args kwargs m st) as [[e|[]] st1]; reflexivity.
Qed.

(** *** The cached callable *)

(** Calling a cached callable leaves the files and the call counter
    alone and keeps the callable registered. *)
Lemma call_compiled_state d args kwargs st r st' :
  call_compiled' d args kwargs st = (r, st') →
  files st' = files st
  ∧ f_calls st' = f_calls st
  ∧ (is_Some (program_cache st !! d) → is_Some (program_cache st' !! d))
  ∧ (∀ d', d' ≠ d → program_cache st' !! d' = program_cache st !! d').
Proof.
  unfold call_compiled. destruct (program_cache st !! d) as [c|] eqn:Hd.
  - destruct (rhs' (files st) args kwargs c) as [r' c'].
    intros [= <- <-]. cbn. split_and!; [done|done| |].
    + intros _. rewrite lookup_insert_eq. by eexists.
    + intros d' Hne. by rewrite lookup_insert_ne.
  - intros [= <- <-]. split_and!; [done|done| |done].
    rewrite Hd. by intros [? [=]].
Qed.

(** The signature extractor rejects the mapping of leaf bindings: it is
    neither a scalar, nor an array container, nor an array. *)
Lemma extract_bindings_rejected (m : gmap arg_id (leaf Array Scalar)) :
  _get_arg_id_to_arg_and_arg_id_to_descr [VBindings m] []
  = inl (ValueError "Argument to a compiled operator should be either a scalar, pt.Array or an array container.").
Proof. reflexivity. Qed.

Lemma rhs_bindings_rejected (fs : gmap string file)
    (m : gmap arg_id (leaf Array Scalar)) (c : compiled) :
  rhs' fs [VBindings m] [] c
  = (inl (ValueError "Argument to a compiled operator should be either a scalar, pt.Array or an array container."),
     c).
Proof. reflexivity. Qed.

(** C3. On a cache hit [__call__] hands the mapping of leaf bindings to
    the cached [rhs] as its only positional argument, where the miss path
    hands it the arguments themselves; [rhs] extracts the signature of
    what it is given and rejects the mapping, so the hit raises instead
    of returning the result of the user's function. *)
Theorem cache_hit_raises self_actx args kwargs st extracted c :
  _get_arg_id_to_arg_and_arg_id_to_descr args kwargs = inr extracted →
  program_cache st !! extracted.2 = Some c →
  ∃ msg st',
    call' self_actx args kwargs st = (inl (ValueError msg), st')
    ∧ program_cache st' = program_cache st
    ∧ files st' = files st
    ∧ f_calls st' = f_calls st.
Proof.
  intros Hex Hc. rewrite call_unfold, Hex, Hc.
  unfold call_compiled. rewrite Hc, rhs_bindings_rejected.
  eexists _, _. split; [reflexivity|]. cbn. split_and!; [|done|done].
  by apply insert_id.
Qed.

(** *** Tracing *)

(** A closure that leaves its variables alone makes a traversal that
    leaves them alone. *)
Lemma rec_keyed_map_state_inv {S A B} (g : list key → A → M S B)
    (c : container A) :
  (∀ k a s, (g k a s).2 = s) →
  ∀ keys s, (rec_keyed_map g keys c s).2 = s.
Proof.
  intros Hg.
  induction c as [a|cls items IH] using container_induction; intros keys s.
  - cbn. unfold bind. specialize (Hg keys a s).
    by destruct (g keys a s) as [[e|b] s'].
  - rewrite rec_keyed_map_Node.
    enough (∀ s, (rec_keyed_map_items g keys items s).2 = s) as Hitems.
    { unfold bind. specialize (Hitems s).
      by destruct (rec_keyed_map_items g keys items s) as [[e|b] s']. }
    induction IH as [|[k sub] rest Hsub _ IHrest]; intros s'; [done|].
    cbn [rec_keyed_map_items].
    fold (@rec_keyed_map_items S A B g keys rest).
    unfold bind at 1. specialize (Hsub (keys ++ [k]) s'). cbn [snd] in Hsub.
    destruct (rec_keyed_map g (keys ++ [k]) sub s') as [[e|b] s1];
      cbn in Hsub; subst s1; [done|].
    unfold bind. specialize (IHrest s').
    by destruct (rec_keyed_map_items g keys rest s') as [[e|bs] s1].
Qed.

Lemma lookup_name_state {S : Type} (names : gmap arg_id string)
    (i : arg_id) (s : S) :
  (lookup_name names i s).2 = s.
Proof. unfold lookup_name. by destruct (names !! i). Qed.

Lemma _get_f_placeholder_args_state {S : Type} (arg : value Array Scalar)
    (kw : key) (names : gmap arg_id string) (s : S) :
  (_get_f_placeholder_args arg kw names s).2 = s.
Proof.
  assert (∀ i s0, (lookup_name (S:=S) names i s0).2 = s0) as Hname
    by (intros; apply lookup_name_state).
  destruct arg as [d x|[a|cls items]|m|cls]; [| | |done|done].
  - cbn. unfold bind. specialize (Hname [kw] s).
    by destruct (lookup_name names [kw] s) as [[e|n] s1].
  - cbn. unfold bind. specialize (Hname [kw] s).
    by destruct (lookup_name names [kw] s) as [[e|n] s1].
  - set (g := λ keys ary,
           bind (lookup_name (S:=S) names (kw :: keys))
             (λ name, ret (make_placeholder name (shape ary) (dtype ary)))).
    assert (∀ k a s0, (g k a s0).2 = s0) as Hg.
    { intros k a s0. unfold g, bind. specialize (Hname (kw :: k) s0).
      by destruct (lookup_name names (kw :: k) s0) as [[e|n] s1]. }
    pose proof (rec_keyed_map_state_inv g (Node cls items) Hg [] s) as Hinv.
    change ((bind (rec_keyed_map g [] (Node cls items))
               (λ c', ret (VArrays (Scalar:=Scalar) c')) s).2 = s).
    unfold bind at 1.
    by destruct (rec_keyed_map g [] (Node cls items) s) as [[e|c'] s1].
Qed.

Lemma list_comprehension_state {S X Y} (body : X → M S Y) (l : list X) :
  (∀ x s, (body x s).2 = s) → ∀ s, (list_comprehension body l s).2 = s.
Proof.
  intros Hbody. induction l as [|x l IH]; intros s; [done|].
  cbn. unfold bind at 1. specialize (Hbody x s).
  destruct (body x s) as [[e|y] s1]; cbn in Hbody; subst s1; [done|].
  unfold bind. specialize (IH s).
  by destruct (list_comprehension body l s) as [[e|ys] s1].
Qed.

(** Tracing either fails while the placeholders are built, before the
    user's function is called, or calls the user's function once. *)
Lemma trace_state args kwargs (m : gmap arg_id (leaf Array Scalar)) st
    (r : exn + value Array Scalar) st' :
  trace' args kwargs m st = (r, st') →
  match r with
  | inl _ => st' = st
  | inr _ => st' = count_f_call st
  end.
Proof.
  unfold trace. unfold bind at 1.
  match goal with
  | |- context [list_comprehension ?body (enumerate args) st] =>
      pose proof (list_comprehension_state body (enumerate args)
                    (λ x s, _get_f_placeholder_args_state x.2 x.1 _ s) st)
        as H1;
      destruct (list_comprehension body (enumerate args) st)
        as [[e|pargs] s1]
  end; cbn in H1; subst s1; [by intros [= <- <-]|].
  unfold bind at 1.
  match goal with
  | |- context [list_comprehension ?body kwargs st] =>
      assert (∀ x s, (body x s).2 = s) as Hbody;
      [|pose proof (list_comprehension_state body kwargs Hbody st) as H2;
        destruct (list_comprehension body kwargs st) as [[e|pkwargs] s1]]
  end.
  { intros x s. unfold bind.
    pose proof (_get_f_placeholder_args_state x.2 (KStr x.1)
                  (map_imap
                     (λ arg_id _,
                        Some ("_actx_in_"
                              +:+ _ary_container_key_stringifier arg_id)) m)
                  s) as Hp.
    by destruct (_get_f_placeholder_args _ _ _ s) as [[e|p] s1]. }
  { cbn in H2; subst s1. by intros [= <- <-]. }
  cbn in H2; subst s1.
  unfold call_f, bind, modify, ret. by intros [= <- <-].
Qed.

(** *** After emission *)

(** However the validation call ends, the artifacts are on disk, the
    user's function has been called once more, and the callable is
    registered. *)
Lemma emit_and_validate_state self_actx args kwargs d
    (output_template : container Array) st
    (r : exn + value Array Scalar) st' :
  emit_and_validate' self_actx args kwargs d output_template st = (r, st') →
  files st'
  = persisted_files' self_actx args
      (value_to_numpy to_numpy (f args kwargs)) output_template (files st)
  ∧ f_calls st' = S (f_calls st)
  ∧ is_Some (program_cache st' !! d).
Proof.
  rewrite emit_and_validate_registered.
  destruct (call_compiled' d args kwargs
              (registered' self_actx args kwargs d output_template st))
    as [r2 st2] eqn:Hcall.
  apply call_compiled_state in Hcall as (Hfiles & Hcalls & Hreg & _).
  intros Hres.
  assert (st' = st2) as ->.
  { destruct r2 as [e|output]; [by injection Hres|].
    by destruct (assert_allclose _ _); injection Hres. }
  rewrite Hfiles, Hcalls. split_and!; [done|done|].
  apply Hreg. cbn. rewrite lookup_insert_eq. by eexists.
Qed.



(** C1. A unit whose output fails the comparison with the reference
    output makes [__call__] raise, yet the unit has been registered before
    it was called and stays in the cache under its descriptor. *)
Theorem failed_validation_stays_registered
    self_actx args kwargs st extracted output_template st1
    (output : value Array Scalar) st2 :
  _get_arg_id_to_arg_and_arg_id_to_descr args kwargs = inr extracted →
  program_cache st !! extracted.2 = None →
  trace' args kwargs extracted.1 st = (inr (VArrays output_template), st1) →
  call_compiled' extracted.2 args kwargs
    (registered' self_actx args kwargs extracted.2 output_template st1)
  = (inr output, st2) →
  assert_allclose (value_to_numpy to_numpy output)
    (value_to_numpy to_numpy (f args kwargs)) = false →
  call' self_actx args kwargs st
  = (inl (AssertionError "Not equal to tolerance"), st2)
  ∧ is_Some (program_cache st2 !! extracted.2).
Proof.
  intros Hex Hmiss Htrace Hcall Hfar.
  rewrite call_unfold, Hex, Hmiss, compile_and_call_unfold, Htrace.
  rewrite emit_and_validate_registered, Hcall, Hfar. split; [done|].
  apply call_compiled_state in Hcall as (_ & _ & Hreg & _).
  apply Hreg. cbn. rewrite lookup_insert_eq. by eexists.
Qed.

(** C4. The reference-input artifact of a compilation holds the
    positional arguments twice: its second component is the tuple of the
    positional arguments again, never the keyword arguments, and the
    reader in [measure.get_flop_rate], which takes the second component
    for a dict, fails on it. *)
Theorem reference_input_holds_positional_arguments_twice
    self_actx args kwargs st extracted output_template st1
    (r : exn + value Array Scalar) st' :
  _get_arg_id_to_arg_and_arg_id_to_descr args kwargs = inr extracted →
  program_cache st !! extracted.2 = None →
  trace' args kwargs extracted.1 st = (inr (VArrays output_template), st1) →
  call' self_actx args kwargs st = (r, st') →
  pickled_ref_input_args_path self_actx
    ≠ pickled_output_template_path self_actx →
  pickled_ref_input_args_path self_actx
    ≠ pickled_ref_output_path self_actx →
  let np_args := PVal <$> (value_to_numpy to_numpy <$> args) in
  files st' !! pickled_ref_input_args_path self_actx
  = Some (FPickle (PTuple [PTuple np_args; PTuple np_args]))
  ∧ (∀ np_kwargs,
       PTuple [PTuple np_args; PTuple np_args]
       ≠ PTuple [PTuple np_args; PDict np_kwargs])
  ∧ load_ref_input (PTuple [PTuple np_args; PTuple np_args])
    = inl (AttributeError "values").
Proof.
  intros Hex Hmiss Htrace Hcall Htpl Hout np_args.
  rewrite call_unfold, Hex, Hmiss, compile_and_call_unfold, Htrace in Hcall.
  apply emit_and_validate_state in Hcall as (-> & _ & _).
  split_and!; [|done|done].
  unfold persisted_files.
  rewrite lookup_insert_ne by done. rewrite lookup_insert_ne by done.
  by rewrite lookup_insert_eq.
Qed.

(** *** Building the placeholders changes nothing *)

Lemma _get_f_placeholder_args_pure {S : Type} (arg : value Array Scalar)
    (kw : key) (names : gmap arg_id string) (s : S) :
  _get_f_placeholder_args arg kw names s = (placeholder_of names kw arg, s).
Proof.
  unfold placeholder_of.
  destruct arg as [d x|[a|cls items]|m|cls]; [| | |done|done].
  - cbn. unfold bind, lookup_name. by destruct (names !! [kw]).
  - cbn. unfold bind, lookup_name. by destruct (names !! [kw]).
  - set (G := λ (keys : list key) (ary : Array),
           match names !! (kw :: keys) with
           | Some name =>
               inr (make_placeholder name (shape ary) (dtype ary))
           | None => inl KeyError
           end).
    assert (∀ S' k a (s' : S'),
              bind (lookup_name names (kw :: k))
                (λ name, ret (make_placeholder name (shape a) (dtype a))) s'
              = (G k a, s')) as HG.
    { intros S' k a s'. unfold G, bind, lookup_name.
      by destruct (names !! (kw :: k)). }
    change (bind (rec_keyed_map
                    (λ keys ary,
                       bind (lookup_name names (kw :: keys))
                         (λ name,
                            ret (make_placeholder name (shape ary)
                                   (dtype ary))))
                    [] (Node cls items))
              (λ c', ret (VArrays (Scalar:=Scalar) c')) s
            = ((bind (rec_keyed_map
                        (λ keys ary,
                           bind (lookup_name names (kw :: keys))
                             (λ name,
                                ret (make_placeholder name (shape ary)
                                       (dtype ary))))
                        [] (Node cls items))
                  (λ c', ret (VArrays (Scalar:=Scalar) c')) tt).1, s)).
    unfold bind at 1 3.
    rewrite (rec_keyed_map_stateless _ G _ (HG S)).
    rewrite (rec_keyed_map_stateless _ G _ (HG unit)).
    by destruct (traverse G [] (Node cls items)).
Qed.

(** *** The names of the inputs depend on the descriptor only *)

(** *** What the user's function is traced on *)

(** The placeholders that the user's function is traced on. *)
Lemma trace_pure args kwargs (m : gmap arg_id (leaf Array Scalar)) st :
  let names :=
    map_imap (λ arg_id _,
                Some ("_actx_in_" +:+ _ary_container_key_stringifier arg_id))
             m in
  trace' args kwargs m st
  = match collect (λ ia, placeholder_of names ia.1 ia.2) (enumerate args) with
    | inl e => (inl e, st)
    | inr placeholder_args =>
        match collect (λ kv,
                         match placeholder_of names (KStr kv.1) kv.2 with
                         | inl e => inl e
                         | inr p => inr (kv.1, p)
                         end) kwargs with
        | inl e => (inl e, st)
        | inr placeholder_kwargs =>
            (inr (f placeholder_args placeholder_kwargs), count_f_call st)
        end
    end.
Proof.
  intros names. unfold trace. fold names.
  unfold bind at 1.
  rewrite (list_comprehension_stateless _
             (λ ia, placeholder_of names ia.1 ia.2))
    by (intros; apply _get_f_placeholder_args_pure).
  destruct (collect _ (enumerate args)) as [e|pargs]; [done|].
  unfold bind at 1.
  rewrite (list_comprehension_stateless _
             (λ kv, match placeholder_of names (KStr kv.1) kv.2 with
                    | inl e => inl e
                    | inr p => inr (kv.1, p)
                    end)).
  - by destruct (collect _ kwargs).
  - intros kv s. unfold bind. rewrite _get_f_placeholder_args_pure.
    by destruct (placeholder_of names (KStr kv.1) kv.2).
Qed.

(** *** The emitted text *)

(** *** The generated entry point on a single array *)

(** C10. When the pickled output template is a single array, [rhs]
    returns the only element of a flat result of shape [(1,)] and fails
    its assertion on a flat result of any other shape. *)
Theorem single_array_result_must_have_shape_1
    (fs : gmap string file) args kwargs (c : compiled) extracted
    npzfile (c1 : compiled) (result : list Array) (placeholder : Array)
    (c2 : compiled) :
  _get_arg_id_to_arg_and_arg_id_to_descr args kwargs = inr extracted →
  _get_compiled_rhs_inner join_dg_benchmarks_path fs c = (inr npzfile, c1) →
  compiled_rhs_inner (c_prg c1) npzfile
    (input_kwargs_to_rhs_inner extracted.1) = inr result →
  _get_output_template join_dg_benchmarks_path fs c1
  = (inr (PVal (VArrays (Leaf placeholder))), c2) →
  ([length result] = [1] →
   ∃ a, result = [a] ∧ rhs' fs args kwargs c = (inr (VArrays (Leaf a)), c2))
  ∧ ([length result] ≠ [1] →
     rhs' fs args kwargs c
     = (inl (AssertionError "result_as_np_obj_array.shape == (1,)"), c2)).
Proof.
  intros Hex Hnpz Hrun Htpl.
  assert (rhs' fs args kwargs c
          = assemble_output (PVal (VArrays (Leaf placeholder))) result c2)
    as ->.
  { unfold rhs. rewrite Hex. unfold lift at 1. unfold bind at 1.
    unfold bind at 1. rewrite Hnpz. unfold bind at 1, get at 1.
    cbn [fst]. rewrite Hrun. unfold bind at 1, lift at 1.
    unfold bind at 1. rewrite Htpl. reflexivity. }
  unfold assemble_output. split; intros Hshape.
  - destruct result as [|a [|]]; try discriminate. exists a.
    split; [done|]. by rewrite decide_True.
  - by rewrite decide_False.
Qed.

End Caller.

(** ** The constructor *)

Lemma isabs_spec (p : string) :
  isabs p = true ↔ ∃ rest, p = String "/" rest.
Proof.
  destruct p as [|c rest]; cbn.
  - split; [done|]. by intros [? [=]].
  - rewrite bool_decide_eq_true. split.
    + intros ->. by eexists.
    + by intros [? [= -> _]].
Qed.

(** C5. The constructor raises when one of its five paths is not absolute
    and otherwise returns the context holding the five paths as given; it
    does nothing else in either case. *)
Theorem constructor_checks_absolute_paths {S : Type} (s : S)
    (p1 p2 p3 p4 p5 : string) :
  ((∃ p, p ∈ [p1; p2; p3; p4; p5] ∧ isabs p = false) →
   SuiteGeneratingArraycontext__init__ p1 p2 p3 p4 p5 s
   = (inl (ValueError "Absolute paths are expected."), s))
  ∧ ((∀ p, p ∈ [p1; p2; p3; p4; p5] → isabs p = true) →
     SuiteGeneratingArraycontext__init__ p1 p2 p3 p4 p5 s
     = (inr {| main_file_path := p1;
               datawrappers_path := p2;
               pickled_ref_input_args_path := p3;
               pickled_ref_output_path := p4;
               pickled_output_template_path := p5 |}, s)).
Proof.
  unfold SuiteGeneratingArraycontext__init__. split.
  - intros (p & Hin & Hrel).
    assert (existsb (λ filepath, negb (isabs filepath)) [p1; p2; p3; p4; p5]
            = true) as ->; [|done].
    apply existsb_exists. exists p. split; [|by rewrite Hrel].
    by apply list_elem_of_In.
  - intros Habs.
    assert (existsb (λ filepath, negb (isabs filepath)) [p1; p2; p3; p4; p5]
            = false) as ->; [|done].
    apply not_true_is_false. intros (p & Hin & Hneg)%existsb_exists.
    apply list_elem_of_In in Hin. rewrite (Habs p Hin) in Hneg. discriminate.
Qed.

(** ** Evaluating the model *)

(** A result that evaluates to a value is that value; a pair with a known
    first component is that component and its own second one.  With these,
    evaluation never has to print a whole cache or file system. *)
Lemma inr_from_inr {E A} (d : A) (r : E + A) :
  is_inr r = true → r = inr (from_inr d r).
Proof. by destruct r. Qed.

Lemma pair_from_parts {A B} (p : A * B) (a : A) : p.1 = a → p = (a, p.2).
Proof. destruct p. by intros <-. Qed.

Ltac run := vm_compute; first [reflexivity | discriminate | exact I].
Ltac run_inr d := apply (inr_from_inr d); run.
Ltac run_pair := apply pair_from_parts; run.

(** ** The properties on the small instance *)

(** C1 on the instance: the inner program that returns zeros fails the
    comparison, and its unit is in the cache afterwards. *)
Lemma failed_validation_stays_registered_witness :
  ∃ extracted st2,
    _get_arg_id_to_arg_and_arg_id_to_descr demo_state [] = inr extracted
    ∧ program_cache demo_state0 !! extracted.2 = None
    ∧ demo_call demo_inner_zeros demo_state [] demo_state0
      = (inl (AssertionError "Not equal to tolerance"), st2)
    ∧ is_Some (program_cache st2 !! extracted.2).
Proof.
  eexists _, _. split; [run_inr (∅ : gmap arg_id (leaf demo_array Z), ∅ : descriptor)|]. split; [run|].
  unfold demo_call.
  eapply failed_validation_stays_registered;
    [run_inr (∅ : gmap arg_id (leaf demo_array Z), ∅ : descriptor)|run|run_pair|run_pair|run].
Defined.


(** C3 on the instance: after a successful compilation, a call with other
    numbers in arrays of the same shapes hits the cache and raises. *)
Lemma cache_hit_raises_witness :
  ∃ msg st',
    demo_call demo_inner demo_state' [] demo_state1
    = (inl (ValueError msg), st')
    ∧ program_cache st' = program_cache demo_state1
    ∧ files st' = files demo_state1
    ∧ f_calls st' = f_calls demo_state1.
Proof.
  unfold demo_call.
  eapply cache_hit_raises;
    [run_inr (∅ : gmap arg_id (leaf demo_array Z), ∅ : descriptor)|run].
Defined.

(** C4 on the instance: a call with one positional and one keyword
    argument leaves the positional argument twice in the artifact. *)
Lemma reference_input_holds_positional_arguments_twice_witness :
  let np_args := PVal <$> (value_to_numpy demo_to_numpy <$> demo_state) in
  files (demo_call demo_inner demo_state demo_kwargs demo_state0).2
    !! pickled_ref_input_args_path demo_actx
  = Some (FPickle (PTuple [PTuple np_args; PTuple np_args]))
  ∧ (∀ np_kwargs,
       PTuple [PTuple np_args; PTuple np_args]
       ≠ PTuple [PTuple np_args; PDict np_kwargs])
  ∧ load_ref_input (PTuple [PTuple np_args; PTuple np_args])
    = inl (AttributeError "values").
Proof.
  unfold demo_call.
  eapply reference_input_holds_positional_arguments_twice
    with (kwargs := demo_kwargs) (st := demo_state0).
  4: apply surjective_pairing.
  - run_inr (∅ : gmap arg_id (leaf demo_array Z), ∅ : descriptor).
  - run.
  - run_pair.
  - run.
  - run.
Defined.

(** C5 on the instance: one relative path among the five makes the
    constructor raise; the five absolute paths give the context. *)
Lemma constructor_checks_absolute_paths_witness :
  SuiteGeneratingArraycontext__init__ "/suite/main.py" "datawrappers.npz"
    "/suite/in.pkl" "/suite/out.pkl" "/suite/template.pkl" demo_state0
  = (inl (ValueError "Absolute paths are expected."), demo_state0)
  ∧ SuiteGeneratingArraycontext__init__ "/suite/main.py"
      "/suite/datawrappers.npz" "/suite/ref_input_args.pkl"
      "/suite/ref_output.pkl" "/suite/output_template.pkl" demo_state0
    = (inr demo_actx, demo_state0).
Proof.
  split.
  - apply (proj1 (constructor_checks_absolute_paths demo_state0 _ _ _ _ _)).
    exists "datawrappers.npz". split; [|reflexivity].
    apply (bool_decide_unpack _). run.
  - apply (proj2 (constructor_checks_absolute_paths demo_state0 _ _ _ _ _)).
    intros p Hp. repeat (apply elem_of_cons in Hp as [->|Hp]; [reflexivity|]).
    by apply elem_of_nil in Hp.
Defined.

(** C7 on the instance: an output nested to depth two is rebuilt from its
    flat values, every value at its place. *)
Lemma output_template_round_trip_witness :
  assemble_output (Scalar:=Z)
    (PVal (VArrays (placeholder_out_template_of demo_nested_output)))
    (flatten_values demo_nested_values) tt
  = (inr (VArrays demo_nested_values), tt).
Proof.
  destruct (output_template_round_trip (Scalar:=Z) demo_nested_output
              demo_nested_values tt ltac:(run)
              ltac:(apply (bool_decide_unpack _); run))
    as (r & Hr & _ & ->).
  exact Hr.
Defined.

(** C7 as stated fails on the instance: the two leaves of an output with
    the fields a_b and a, the latter with the field b, have different key
    tuples and the same name; the dict of the named arrays holds one of
    them, the flat result has one entry for the two positions of the
    template, and the reassembly raises. *)
Lemma colliding_names_break_the_round_trip :
  NoDup (keyed_leaves [] demo_colliding_output).*1
  ∧ _ary_container_key_stringifier <$> (keyed_leaves [] demo_colliding_output).*1
    = ["a_b"; "a_b"]
  ∧ length (flatten_values demo_colliding_output) = 1
  ∧ assemble_output (Scalar:=Z)
      (PVal (VArrays (placeholder_out_template_of demo_colliding_output)))
      (flatten_values demo_colliding_output) tt
    = (inl IndexError, tt).
Proof.
  split; [apply (bool_decide_unpack _); run|]. split; [run|]. split; run.
Qed.



(** C10 on the instance: for a bare array the right inner program
    returns one element, which [rhs] unwraps; the flat result of two zeros
    fails the assertion. *)
Lemma single_array_result_must_have_shape_1_witness :
  (∃ c2,
     rhs id demo_inner demo_bare_files demo_bare [] demo_bare_compiled
     = (inr (VArrays (Leaf (demo_device [9]%Z))), c2))
  ∧ (∃ c2,
       rhs id demo_inner_zeros demo_bare_files demo_bare [] demo_bare_compiled
       = (inl (AssertionError "result_as_np_obj_array.shape == (1,)"), c2)).
Proof.
  split.
  - eexists.
    edestruct (single_array_result_must_have_shape_1 id demo_inner
                 demo_bare_files demo_bare [] demo_bare_compiled)
      as [Hone _];
      [run_inr (∅ : gmap arg_id (leaf demo_array Z), ∅ : descriptor)
      |run_pair|run|run_pair|].
    destruct (Hone ltac:(run)) as (a & [= <-] & Hrhs). exact Hrhs.
  - eexists.
    edestruct (single_array_result_must_have_shape_1 id demo_inner_zeros
                 demo_bare_files demo_bare [] demo_bare_compiled)
      as [_ Hnot];
      [run_inr (∅ : gmap arg_id (leaf demo_array Z), ∅ : descriptor)
      |run_pair|run|run_pair|].
    apply Hnot. run.
Defined.

(** * Further properties of the signature extractor and of tracing *)

Lemma collect_inr {X Y} (G : X → exn + Y) (g : X → Y) (l : list X) :
  (∀ x, x ∈ l → G x = inr (g x)) → collect G l = inr (g <$> l).
Proof.
  unfold collect. induction l as [|x l IH]; intros HG; [done|].
  cbn. unfold bind, lift. rewrite (HG x) by left.
  specialize (IH (λ y Hy, HG y (list_elem_of_further _ _ _ Hy))).
  destruct (list_comprehension _ l tt) as [[e|ys] []]; cbn in IH;
    [done|]. by injection IH as ->.
Qed.

Section Extraction.
Context {Array Scalar : Type} `{!ArrayLike Array}.
Implicit Types s : gmap arg_id (leaf Array Scalar) * descriptor.
Implicit Types arg : value Array Scalar.

(** A scalar, an array or a container is recorded under its argument
    ids; anything else is refused and nothing is recorded. *)
Lemma extract_one_recognized (kw : key) arg s :
  recognized arg = true →
  ∃ s', extract_one (kw, arg) s = (inr tt, s')
        ∧ ∀ i, i ∈ dom s'.1 ↔ i ∈ dom s.1 ∨ i ∈ arg_ids_of kw arg.
Proof.
  destruct arg as [d x|c|m|cls]; try done; intros _.
  - eexists. split; [reflexivity|]. intros i. cbn.
    rewrite dom_insert_L, elem_of_union, elem_of_singleton,
      list_elem_of_singleton. tauto.
  - cbn [extract_one]. unfold rec_keyed_map_array_container, bind.
    rewrite (rec_keyed_map_pure _ (λ _ a, a)
               (λ k a s0,
                  (<[kw :: k := LArray a]> s0.1,
                   <[kw :: k := LeafArrayDescriptor (dtype a) (shape a)]>
                     s0.2))) by reflexivity.
    eexists. split; [reflexivity|]. cbn [arg_ids_of].
    generalize (keyed_leaves [] c). intros l. revert s.
    induction l as [|[k a] l IH]; intros s i; cbn.
    + rewrite elem_of_nil. tauto.
    + rewrite IH. cbn. rewrite dom_insert_L, elem_of_union,
        elem_of_singleton, elem_of_cons. tauto.
Qed.

Lemma extract_one_unrecognized (kw : key) arg s :
  recognized arg = false →
  extract_one (kw, arg) s
  = (inl (ValueError "Argument to a compiled operator should be either a scalar, pt.Array or an array container."),
     s).
Proof. by destruct arg. Qed.

(** The loop of the extractor either records every argument, or stops at
    the first one that is not recognized. *)
Lemma for_each_extract_one (l : list (key * value Array Scalar)) s :
  match for_each extract_one l s with
  | (inr _, s') =>
      (∀ x, x ∈ l → recognized x.2 = true)
      ∧ ∀ i, i ∈ dom s'.1
             ↔ i ∈ dom s.1 ∨ ∃ x, x ∈ l ∧ i ∈ arg_ids_of x.1 x.2
  | (inl e, _) =>
      e = ValueError "Argument to a compiled operator should be either a scalar, pt.Array or an array container."
      ∧ ∃ x, x ∈ l ∧ recognized x.2 = false
  end.
Proof.
  revert s. induction l as [|[kw arg] l IH]; intros s.
  - cbn. split; [by intros ? ?%elem_of_nil|]. intros i. split; [by left|].
    by intros [?|(? & ?%elem_of_nil & _)].
  - cbn [for_each]. unfold bind.
    destruct (recognized arg) eqn:Hrec.
    + destruct (extract_one_recognized kw arg s Hrec) as (s1 & -> & Hdom).
      specialize (IH s1).
      destruct (for_each extract_one l s1) as [[e|[]] s'].
      * destruct IH as (-> & x & Hx & Hbad). split; [done|].
        exists x. split; [by right|done].
      * destruct IH as (Hall & Hdom'). split.
        -- intros x [->|Hx]%elem_of_cons; [done|by apply Hall].
        -- intros i. rewrite Hdom', Hdom. split.
           ++ intros [[?|?]|(x & Hx & Hi)]; [by left| |].
              ** right. exists (kw, arg). split; [left|done].
              ** right. exists x. split; [by right|done].
           ++ intros [?|(x & [->|Hx]%elem_of_cons & Hi)];
                [by left; left|by left; right|].
              right. by exists x.
    + rewrite (extract_one_unrecognized kw arg s Hrec). split; [done|].
      exists (kw, arg). split; [left|done].
Qed.

(** The signature extractor succeeds exactly on recognized arguments. *)
Lemma extract_inr_iff (args : list (value Array Scalar))
    (kwargs : list (string * value Array Scalar)) :
  is_inr (_get_arg_id_to_arg_and_arg_id_to_descr args kwargs) = true
  ↔ ∀ arg, arg ∈ args ++ kwargs.*2 → recognized arg = true.
Proof.
  unfold _get_arg_id_to_arg_and_arg_id_to_descr.
  pose proof (for_each_extract_one (enumerate args ++ kw_items kwargs) (∅, ∅))
    as Hfor.
  assert (∀ arg, arg ∈ args ++ kwargs.*2
                 ↔ ∃ x, x ∈ enumerate args ++ kw_items kwargs ∧ x.2 = arg)
    as Hmem.
  { intros arg. rewrite elem_of_app. split.
    - intros [Hin|Hin].
      + apply list_elem_of_lookup in Hin as [i Hi].
        exists (KInt i, arg). split; [|done]. apply elem_of_app. left.
        unfold enumerate. apply list_elem_of_lookup. exists i.
        by rewrite list_lookup_imap, Hi.
      + apply list_elem_of_fmap in Hin as ([k v] & -> & Hin).
        exists (KStr k, v). split; [|done]. apply elem_of_app. right.
        unfold kw_items. apply list_elem_of_fmap. by exists (k, v).
    - intros ([kw a] & [Hin|Hin]%elem_of_app & <-).
      + left. unfold enumerate in Hin.
        apply list_elem_of_lookup in Hin as [i Hi].
        rewrite list_lookup_imap in Hi.
        destruct (args !! i) as [a'|] eqn:Ha; [|done].
        injection Hi as _ <-. by eapply list_elem_of_lookup_2.
      + right. unfold kw_items in Hin.
        apply list_elem_of_fmap in Hin as ([k v] & [= -> ->] & Hin).
        apply list_elem_of_fmap. by exists (k, v). }
  destruct (for_each extract_one _ (∅, ∅)) as [[e|[]] s'].
  - destruct Hfor as (_ & x & Hx & Hbad). split; [done|].
    intros Hall. rewrite (Hall x.2) in Hbad; [done|].
    apply Hmem. by exists x.
  - destruct Hfor as (Hall & _). split; [|done].
    intros _ arg (x & Hx & <-)%Hmem. by apply Hall.
Qed.

(** What a successful extraction has recorded: every argument was
    recognized, and the ids bound are those of the arguments. *)
Lemma extract_inr_dom (args : list (value Array Scalar))
    (kwargs : list (string * value Array Scalar))
    (extracted : gmap arg_id (leaf Array Scalar) * descriptor) :
  _get_arg_id_to_arg_and_arg_id_to_descr args kwargs = inr extracted →
  (∀ x, x ∈ enumerate args ++ kw_items kwargs → recognized x.2 = true)
  ∧ ∀ i, i ∈ dom extracted.1
         ↔ ∃ x, x ∈ enumerate args ++ kw_items kwargs
                ∧ i ∈ arg_ids_of x.1 x.2.
Proof.
  unfold _get_arg_id_to_arg_and_arg_id_to_descr.
  pose proof (for_each_extract_one (enumerate args ++ kw_items kwargs) (∅, ∅))
    as Hfor.
  destruct (for_each extract_one _ (∅, ∅)) as [[e|[]] s']; [done|].
  intros [= <-]. destruct Hfor as (Hall & Hdom). split; [done|].
  intros i. rewrite Hdom. cbn. rewrite dom_empty_L.
  split; [intros [?%elem_of_empty|?]; done|by right].
Qed.

(** What makes the extractor fail is an argument that is not recognized,
    and the failure is a ValueError. *)
Lemma extract_inl (args : list (value Array Scalar))
    (kwargs : list (string * value Array Scalar)) (e : exn) :
  _get_arg_id_to_arg_and_arg_id_to_descr args kwargs = inl e →
  e = ValueError "Argument to a compiled operator should be either a scalar, pt.Array or an array container.".
Proof.
  unfold _get_arg_id_to_arg_and_arg_id_to_descr.
  pose proof (for_each_extract_one (enumerate args ++ kw_items kwargs) (∅, ∅))
    as Hfor.
  destruct (for_each extract_one _ (∅, ∅)) as [[e'|[]] s']; [|done].
  intros [= <-]. by destruct Hfor.
Qed.

(** With a name for every id of the argument, the placeholder builder
    finds every name it looks up. *)
Lemma placeholder_of_named (names : gmap arg_id string) (kw : key) arg :
  recognized arg = true →
  (∀ i, i ∈ arg_ids_of kw arg →
        names !! i = Some ("_actx_in_" +:+ _ary_container_key_stringifier i)) →
  placeholder_of names kw arg = inr (placeholder_value kw arg).
Proof.
  intros Hrec Hnames. unfold placeholder_of.
  destruct arg as [d x|[a|cls items]|m|cls]; try done.
  - cbn. unfold bind, lookup_name. by rewrite (Hnames [kw]) by (cbn; left).
  - cbn. unfold bind, lookup_name. by rewrite (Hnames [kw]) by (cbn; left).
  - cbn [_get_f_placeholder_args]. unfold rec_keyed_map_array_container, bind.
    rewrite (rec_keyed_map_pure _
               (λ keys ary,
                  make_placeholder
                    ("_actx_in_"
                     +:+ _ary_container_key_stringifier (kw :: keys))
                    (shape ary) (dtype ary))
               (λ _ _ u, u)); [done|].
    intros k a u Hka. unfold bind, lookup_name.
    rewrite (Hnames (kw :: k)); [done|].
    cbn [arg_ids_of]. apply list_elem_of_fmap. by exists (k, a).
Qed.

End Extraction.

(** * Further properties of the caller *)

Section Artifacts.
Context {Array Scalar : Type} `{!ArrayLike Array} {Ast : Type}.
Variable generate_arraycontext_code :
  list (string * Array) → inner_code_prg (Array:=Array) (Ast:=Ast).
Variable unparse : Ast → string.
Variables host0 host1 host2 host3 host4 : string.
Variables re_sub_indent remove_common_indentation autoflake black
  : string → string.
Variables relpath join_dg_benchmarks_path : string → string.
Variable compiled_rhs_inner :
  inner_code_prg (Array:=Array) (Ast:=Ast) → list (string * Array)
  → gmap string (leaf Array Scalar) → exn + list Array.
Variable to_numpy : Array → Array.
Variable assert_allclose : value Array Scalar → value Array Scalar → bool.
Variable f :
  list (value Array Scalar) → list (string * value Array Scalar)
  → value Array Scalar.

Abbreviation rhs' := (rhs join_dg_benchmarks_path compiled_rhs_inner).
Abbreviation call_compiled' :=
  (call_compiled join_dg_benchmarks_path compiled_rhs_inner).
Abbreviation trace' := (trace (Ast:=Ast) f).
Abbreviation host_code_of' :=
  (host_code_of unparse host0 host1 host2 host3 host4 re_sub_indent
     remove_common_indentation relpath).
Abbreviation persisted_files' :=
  (persisted_files generate_arraycontext_code unparse host0 host1 host2
     host3 host4 re_sub_indent remove_common_indentation autoflake black
     relpath to_numpy).
Abbreviation registered' :=
  (registered generate_arraycontext_code unparse host0 host1 host2 host3
     host4 re_sub_indent remove_common_indentation autoflake black relpath
     to_numpy f).
Abbreviation emit_and_validate' :=
  (emit_and_validate generate_arraycontext_code unparse host0 host1 host2
     host3 host4 re_sub_indent remove_common_indentation autoflake black
     relpath join_dg_benchmarks_path compiled_rhs_inner to_numpy
     assert_allclose f).
Abbreviation compile_and_call' :=
  (compile_and_call generate_arraycontext_code unparse host0 host1 host2
     host3 host4 re_sub_indent remove_common_indentation autoflake black
     relpath join_dg_benchmarks_path compiled_rhs_inner to_numpy
     assert_allclose f).
Abbreviation call' :=
  (__call__ generate_arraycontext_code unparse host0 host1 host2
     host3 host4 re_sub_indent remove_common_indentation autoflake black
     relpath join_dg_benchmarks_path compiled_rhs_inner to_numpy
     assert_allclose f).

Implicit Types st : state (Array:=Array) (Scalar:=Scalar) (Ast:=Ast).
Implicit Types args : list (value Array Scalar).
Implicit Types kwargs : list (string * value Array Scalar).
Implicit Types self_actx : SuiteGeneratingArraycontext.

(** The state in which [emit_and_validate] ends is the state in which the
    validation call ends. *)
Lemma emit_and_validate_final self_actx args kwargs d
    (output_template : container Array) st
    (r : exn + value Array Scalar) st' :
  emit_and_validate' self_actx args kwargs d output_template st = (r, st') →
  ∃ r2,
    call_compiled' d args kwargs
      (registered' self_actx args kwargs d output_template st) = (r2, st')
    ∧ match r2 with
      | inl e => r = inl e
      | inr output =>
          if assert_allclose (value_to_numpy to_numpy output)
               (value_to_numpy to_numpy (f args kwargs))
          then r = inr output
          else r = inl (AssertionError "Not equal to tolerance")
      end.
Proof.
  rewrite emit_and_validate_registered.
  destruct (call_compiled' d args kwargs
              (registered' self_actx args kwargs d output_template st))
    as [r2 st2].
  intros Hres. exists r2.
  destruct r2 as [e|output].
  - by injection Hres as <- <-.
  - destruct (assert_allclose _ _); by injection Hres as <- <-.
Qed.

(** X1. No call evicts or replaces a registered unit: what the cache
    holds under a descriptor before a call, it holds after it. *)
Theorem registered_unit_is_kept self_actx args kwargs st
    (d : descriptor) (c : compiled) :
  program_cache st !! d = Some c →
  program_cache (call' self_actx args kwargs st).2 !! d = Some c.
Proof.
  intros Hd. rewrite call_unfold.
  destruct (_get_arg_id_to_arg_and_arg_id_to_descr args kwargs)
    as [e|extracted] eqn:Hex; [done|].
  destruct (program_cache st !! extracted.2) as [c0|] eqn:Hc0.
  - unfold call_compiled. rewrite Hc0, rhs_bindings_rejected. cbn.
    by rewrite insert_id.
  - assert (d ≠ extracted.2) as Hne by congruence.
    rewrite compile_and_call_unfold.
    destruct (trace' args kwargs extracted.1 st) as [r st1] eqn:Htrace.
    apply trace_state in Htrace.
    destruct r as [e|v]; subst st1; [done|].
    destruct v as [d0 x|output_template|m|cls]; try done.
    destruct (emit_and_validate' _ _ _ _ _ _) as [r st'] eqn:Hemit.
    apply emit_and_validate_final in Hemit as (r2 & Hcall & _).
    apply call_compiled_state in Hcall as (_ & _ & _ & Hother).
    cbn [snd]. rewrite Hother by done. cbn.
    by rewrite lookup_insert_ne.
Qed.

(** X2. A miss that returns has passed the comparison: the value
    returned is what the freshly registered callable gave on the call's own
    arguments, it compared equal within tolerance to the user's function on
    the same arguments, the unit is registered, and the user's function has
    run twice. *)
Theorem returned_output_passed_validation self_actx args kwargs st extracted
    (output : value Array Scalar) st' :
  _get_arg_id_to_arg_and_arg_id_to_descr args kwargs = inr extracted →
  program_cache st !! extracted.2 = None →
  call' self_actx args kwargs st = (inr output, st') →
  assert_allclose (value_to_numpy to_numpy output)
    (value_to_numpy to_numpy (f args kwargs)) = true
  ∧ is_Some (program_cache st' !! extracted.2)
  ∧ f_calls st' = f_calls st + 2
  ∧ ∃ output_template,
      (trace' args kwargs extracted.1 st).1 = inr (VArrays output_template)
      ∧ call_compiled' extracted.2 args kwargs
          (registered' self_actx args kwargs extracted.2 output_template
             (count_f_call st))
        = (inr output, st').
Proof.
  intros Hex Hmiss. rewrite call_unfold, Hex, Hmiss, compile_and_call_unfold.
  destruct (trace' args kwargs extracted.1 st) as [r st1] eqn:Htrace.
  apply trace_state in Htrace.
  destruct r as [e|v]; subst st1; [done|].
  destruct v as [d0 x|output_template|m|cls]; try done.
  intros Hemit.
  pose proof Hemit as Hstate.
  apply emit_and_validate_state in Hstate as (_ & Hcalls & Hreg).
  apply emit_and_validate_final in Hemit as (r2 & Hcall & Hr2).
  destruct r2 as [e|output2]; [done|].
  destruct (assert_allclose _ _) eqn:Hclose; [|done].
  injection Hr2 as <-.
  split_and!; [done|done|cbn in Hcalls; lia|].
  by exists output_template.
Qed.

(** X3. A call writes to no path other than the five artifact paths of
    its context. *)
Theorem only_artifact_paths_are_written self_actx args kwargs st
    (path : string) :
  path ∉ artifact_paths self_actx →
  files (call' self_actx args kwargs st).2 !! path = files st !! path.
Proof.
  intros Hpath. unfold artifact_paths in Hpath.
  rewrite !not_elem_of_cons in Hpath.
  destruct Hpath as (Hmain & Hdw & Hin & Htpl & Hout & _).
  rewrite call_unfold.
  destruct (_get_arg_id_to_arg_and_arg_id_to_descr args kwargs)
    as [e|extracted] eqn:Hex; [done|].
  destruct (program_cache st !! extracted.2) as [c0|] eqn:Hc0.
  - destruct (call_compiled' _ _ _ st) as [r st'] eqn:Hcall.
    apply call_compiled_state in Hcall as (Hfiles & _). cbn.
    by rewrite Hfiles.
  - rewrite compile_and_call_unfold.
    destruct (trace' args kwargs extracted.1 st) as [r st1] eqn:Htrace.
    apply trace_state in Htrace.
    destruct r as [e|v]; subst st1; [done|].
    destruct v as [d0 x|output_template|m|cls]; try done.
    destruct (emit_and_validate' _ _ _ _ _ _) as [r st'] eqn:Hemit.
    apply emit_and_validate_state in Hemit as (Hfiles & _).
    cbn [snd]. rewrite Hfiles. unfold persisted_files. cbn [files].
    by rewrite !lookup_insert_ne by done.
Qed.


(** X8. After a successful extraction tracing cannot fail: every name
    that the placeholder builder looks up is in the dict built from the
    extracted ids, and the user's function is called, once, on the arguments
    with every leaf replaced by a placeholder of the same shape and dtype
    named after its argument id, in the containers and under the keywords of
    the call. *)
Theorem tracing_calls_f_on_named_placeholders args kwargs st extracted :
  _get_arg_id_to_arg_and_arg_id_to_descr args kwargs = inr extracted →
  trace' args kwargs extracted.1 st
  = (inr (f ((λ ia, placeholder_value ia.1 ia.2) <$> enumerate args)
            ((λ kv, (kv.1, placeholder_value (KStr kv.1) kv.2)) <$> kwargs)),
     count_f_call st).
Proof.
  intros (Hall & Hdom)%extract_inr_dom.
  assert (∀ x, x ∈ enumerate args ++ kw_items kwargs →
               placeholder_of (input_id_to_name_in_program extracted.1)
                 x.1 x.2
               = inr (placeholder_value x.1 x.2)) as Hph.
  { intros x Hx. apply placeholder_of_named; [by apply Hall|].
    intros i Hi. unfold input_id_to_name_in_program.
    rewrite map_lookup_imap.
    assert (i ∈ dom extracted.1) as [l Hl]%elem_of_dom
      by (apply Hdom; by exists x).
    by rewrite Hl. }
  rewrite trace_pure. fold (input_id_to_name_in_program extracted.1).
  rewrite (collect_inr _ (λ ia, placeholder_value ia.1 ia.2)).
  2: { intros x Hx. apply Hph, elem_of_app. by left. }
  rewrite (collect_inr _ (λ kv, (kv.1, placeholder_value (KStr kv.1) kv.2)));
    [done|].
  intros kv Hkv.
  pose proof (Hph (KStr kv.1, kv.2)) as Hkw. cbn [fst snd] in Hkw.
  rewrite Hkw; [done|].
  apply elem_of_app. right. unfold kw_items. apply list_elem_of_fmap.
  by exists kv.
Qed.

(** X9. An argument that is neither a scalar, an array nor an array
    container, at any position or under any keyword, makes the call raise
    the extractor's ValueError before anything else happens: no file is
    written, the cache is as before and the user's function has not been
    called. *)
Theorem unrecognized_argument_is_refused self_actx args kwargs st
    (arg : value Array Scalar) :
  arg ∈ args ++ kwargs.*2 →
  recognized arg = false →
  call' self_actx args kwargs st
  = (inl (ValueError "Argument to a compiled operator should be either a scalar, pt.Array or an array container."),
     st).
Proof.
  intros Hin Hbad. rewrite call_unfold.
  destruct (_get_arg_id_to_arg_and_arg_id_to_descr args kwargs)
    as [e|extracted] eqn:Hex.
  - by rewrite (extract_inl _ _ _ Hex).
  - assert (is_inr (_get_arg_id_to_arg_and_arg_id_to_descr args kwargs)
            = true) as Hall by (by rewrite Hex).
    rewrite extract_inr_iff in Hall. rewrite (Hall arg Hin) in Hbad. done.
Qed.

End Artifacts.

(** * Further properties of the generated entry point *)

(** A dict built from pairs has exactly the first components as keys. *)
Lemma dict_of_pairs_is_Some `{Countable K} {V} (l : list (K * V)) (k : K) :
  is_Some (dict_of_pairs l !! k) ↔ k ∈ l.*1.
Proof.
  induction l as [|[k' v'] l IH] using rev_ind.
  - unfold dict_of_pairs. cbn. rewrite lookup_empty, elem_of_nil.
    split; [by intros [? [=]]|done].
  - rewrite dict_of_pairs_snoc, fmap_app, elem_of_app. cbn.
    rewrite list_elem_of_singleton.
    destruct (decide (k' = k)) as [->|Hne].
    + rewrite lookup_insert_eq. split; [by right|by eexists].
    + rewrite lookup_insert_ne by done. rewrite IH.
      split; [by left|]. by intros [?|?].
Qed.

(** What a traversal that changes nothing returns: an exception that one
    of the leaves raised, or a container when no leaf raised. *)
Lemma traverse_inv {A B} (G : list key → A → exn + B) (c : container A) :
  ∀ keys,
    match traverse G keys c with
    | inl e => ∃ k a, (k, a) ∈ keyed_leaves keys c ∧ G k a = inl e
    | inr _ => ∀ k a, (k, a) ∈ keyed_leaves keys c → is_inr (G k a) = true
    end.
Proof.
  unfold traverse.
  induction c as [a|cls items IH] using container_induction; intros keys.
  - cbn. unfold bind, lift. destruct (G keys a) as [e|b] eqn:HG; cbn.
    + exists keys, a. split; [left|done].
    + intros k a' [= -> ->]%list_elem_of_singleton. by rewrite HG.
  - rewrite rec_keyed_map_Node, keyed_leaves_Node.
    enough (match (rec_keyed_map_items (S:=unit) (λ k a, lift (G k a))
                     keys items tt).1 with
            | inl e =>
                ∃ k a, (k, a) ∈ keyed_leaves_items keys items ∧ G k a = inl e
            | inr _ =>
                ∀ k a, (k, a) ∈ keyed_leaves_items keys items
                       → is_inr (G k a) = true
            end) as Hitems.
    { unfold bind.
      by destruct (rec_keyed_map_items _ keys items tt) as [[e|x] []]. }
    induction IH as [|[k sub] rest Hsub _ IHrest].
    + cbn. by intros k a ?%elem_of_nil.
    + cbn [rec_keyed_map_items].
      fold (@rec_keyed_map_items unit A B (λ k a, lift (G k a)) keys rest).
      rewrite keyed_leaves_items_cons.
      cbn [snd] in Hsub. specialize (Hsub (keys ++ [k])).
      unfold bind.
      destruct (rec_keyed_map _ (keys ++ [k]) sub tt) as [[e|x] []];
        cbn [fst] in Hsub.
      * destruct Hsub as (k0 & a & Hin & HG). exists k0, a.
        split; [|done]. apply elem_of_app. by left.
      * destruct (rec_keyed_map_items _ keys rest tt) as [[e|xs] []];
          cbn [fst] in IHrest |- *.
        -- destruct IHrest as (k0 & a & Hin & HG). exists k0, a.
           split; [|done]. apply elem_of_app. by right.
        -- intros k0 a [?|?]%elem_of_app; auto.
Qed.

Section Reassembly.
Context {Array Scalar : Type} `{!ArrayLike Array}.

(** Reassembling changes nothing. *)
Lemma to_output_template_stateless {S : Type}
    (keys_to_pos : gmap (list key) nat) (flat : list Array)
    (keys : list key) (a : Array) (s : S) :
  to_output_template keys_to_pos flat keys a s
  = (to_output_template_pure keys_to_pos flat keys a, s).
Proof.
  unfold to_output_template, to_output_template_pure.
  destruct (keys_to_pos !! keys) as [pos|]; [|done].
  by destruct (flat !! pos).
Qed.

(** Every leaf of the template has a position below the number of distinct
    key tuples, and the last position is taken by one of the leaves. *)
Lemma key_to_pos_in_range (output_template : container Array) (k : list key) :
  k ∈ (keyed_leaves [] output_template).*1 →
  ∃ pos, _get_key_to_pos_in_output_template output_template !! k = Some pos
         ∧ pos < size (output_keys_of output_template).
Proof.
  intros Hk. apply sorted_output_keys_elem in Hk.
  apply list_elem_of_lookup in Hk as [pos Hpos]. exists pos. split.
  - by apply lookup_key_to_pos.
  - rewrite <- sorted_output_keys_length. by eapply lookup_lt_Some.
Qed.

Lemma key_to_pos_last (output_template : container Array) :
  0 < size (output_keys_of output_template) →
  ∃ k a, (k, a) ∈ keyed_leaves [] output_template
         ∧ _get_key_to_pos_in_output_template output_template !! k
           = Some (pred (size (output_keys_of output_template))).
Proof.
  intros Hpos. rewrite <- sorted_output_keys_length in *.
  destruct (lookup_lt_is_Some_2 (sorted_output_keys output_template)
              (pred (length (sorted_output_keys output_template))))
    as [k Hk]; [lia|].
  pose proof (proj2 (list_elem_of_lookup _ _) (ex_intro _ _ Hk)) as Hin.
  apply sorted_output_keys_elem, list_elem_of_fmap in Hin
    as ([k' a] & -> & Hin).
  exists k', a. split; [done|]. by apply lookup_key_to_pos.
Qed.

(** X6. For a container template, the generated [rhs] puts the flat
    result back together exactly when it has at least as many entries as
    the template has distinct leaf key tuples, further entries being
    ignored; with fewer entries it raises [IndexError]. *)
Theorem assemble_output_needs_a_result_per_leaf {S : Type}
    (cls : string) (items : list (key * container Array))
    (flat : list Array) (s : S) :
  let output_template := Node cls items in
  let n := size (output_keys_of output_template) in
  (n ≤ length flat →
   ∃ r, assemble_output (Scalar:=Scalar) (PVal (VArrays output_template))
          flat s = (inr (VArrays r), s)
        ∧ skeleton r = skeleton output_template)
  ∧ (length flat < n →
     assemble_output (Scalar:=Scalar) (PVal (VArrays output_template)) flat s
     = (inl IndexError, s)).
Proof.
  intros output_template n.
  assert (assemble_output (Scalar:=Scalar) (PVal (VArrays output_template))
            flat s
          = match traverse
                    (to_output_template_pure
                       (_get_key_to_pos_in_output_template output_template)
                       flat) [] output_template with
            | inl e => (inl e, s)
            | inr r => (inr (VArrays r), s)
            end) as ->.
  { subst output_template.
    unfold assemble_output, rec_keyed_map_array_container, bind.
    rewrite (rec_keyed_map_stateless _
               (to_output_template_pure
                  (_get_key_to_pos_in_output_template (Node cls items)) flat))
      by (intros; apply to_output_template_stateless).
    by destruct (traverse _ [] (Node cls items)). }
  set (pos := _get_key_to_pos_in_output_template output_template).
  pose proof (traverse_inv (to_output_template_pure pos flat)
                output_template []) as Hinv.
  assert (∀ k a, (k, a) ∈ keyed_leaves [] output_template →
                 ∃ i, pos !! k = Some i ∧ i < n
                      ∧ to_output_template_pure pos flat k a
                        = match flat !! i with
                          | Some x => inr x
                          | None => inl IndexError
                          end) as Hleaf.
  { intros k a Hka.
    destruct (key_to_pos_in_range output_template k) as (i & Hi & Hlt).
    { apply list_elem_of_fmap. by exists (k, a). }
    exists i. split_and!; [done|done|].
    unfold to_output_template_pure, pos. by rewrite Hi. }
  split.
  - intros Hlen.
    destruct (traverse _ [] output_template) as [e|r] eqn:Htrav.
    + destruct Hinv as (k & a & Hka & HG).
      destruct (Hleaf k a Hka) as (i & _ & Hi & Heq).
      rewrite Heq in HG.
      destruct (lookup_lt_is_Some_2 flat i) as [x Hx]; [lia|].
      by rewrite Hx in HG.
    + exists r. split; [done|].
      assert (rec_keyed_map (S:=unit)
                (λ k a, lift (to_output_template_pure pos flat k a)) []
                output_template tt = (inr r, tt)) as Hrec.
      { unfold traverse in Htrav.
        destruct (rec_keyed_map _ [] output_template tt) as [x []].
        cbn in Htrav. by subst x. }
      rewrite (rec_keyed_map_pure _
                 (λ k a, from_inr a (to_output_template_pure pos flat k a))
                 (λ _ _ u, u)) in Hrec.
      * assert (r = keyed_map
                      (λ k a,
                         from_inr a (to_output_template_pure pos flat k a))
                      [] output_template) as -> by congruence.
        apply skeleton_keyed_map.
      * intros k a [] Hka. specialize (Hinv k a Hka). unfold lift.
        by destruct (to_output_template_pure pos flat k a).
  - intros Hlen.
    destruct (key_to_pos_last output_template) as (k & a & Hka & Hlast);
      [fold n; lia|].
    destruct (traverse _ [] output_template) as [e|r] eqn:Htrav.
    + destruct Hinv as (k' & a' & Hka' & HG).
      destruct (Hleaf k' a' Hka') as (i & _ & _ & Heq). rewrite Heq in HG.
      destruct (flat !! i); [done|]. by injection HG as <-.
    + specialize (Hinv k a Hka).
      unfold to_output_template_pure, pos in Hinv.
      rewrite Hlast in Hinv. fold n in Hinv.
      rewrite (lookup_ge_None_2 flat (pred n)) in Hinv by lia. done.
Qed.

(** X7. The keyword arguments that the generated [rhs] hands to the
    inner function carry exactly the names that [__call__] gave to the
    placeholders at trace time; and when no two argument ids stringify
    alike, every name is bound to the value of its own argument. *)
Theorem placeholder_names_are_bound
    (arg_id_to_arg : gmap arg_id (leaf Array Scalar)) :
  (∀ name,
     is_Some (input_kwargs_to_rhs_inner arg_id_to_arg !! name)
     ↔ ∃ arg_id,
         input_id_to_name_in_program arg_id_to_arg !! arg_id = Some name)
  ∧ ((∀ i j, is_Some (arg_id_to_arg !! i) → is_Some (arg_id_to_arg !! j) →
             _ary_container_key_stringifier i
             = _ary_container_key_stringifier j → i = j) →
     ∀ arg_id name,
       input_id_to_name_in_program arg_id_to_arg !! arg_id = Some name →
       input_kwargs_to_rhs_inner arg_id_to_arg !! name
       = arg_id_to_arg !! arg_id).
Proof.
  assert (∀ arg_id name,
            input_id_to_name_in_program arg_id_to_arg !! arg_id = Some name
            ↔ is_Some (arg_id_to_arg !! arg_id)
              ∧ name = "_actx_in_" +:+ _ary_container_key_stringifier arg_id)
    as Hname.
  { intros arg_id name. unfold input_id_to_name_in_program.
    rewrite map_lookup_imap.
    destruct (arg_id_to_arg !! arg_id) as [v|]; cbn.
    - split; [intros [= <-]; by split; [eexists|]|by intros [_ ->]].
    - split; [done|]. by intros [[? [=]] _]. }
  split.
  - intros name. unfold input_kwargs_to_rhs_inner.
    rewrite dict_of_pairs_is_Some, <- list_fmap_compose.
    rewrite list_elem_of_fmap. split.
    + intros ([i v] & -> & Hin%elem_of_map_to_list). exists i.
      apply Hname. split; [by eexists|done].
    + intros (i & [[v Hv] ->]%Hname). exists (i, v).
      split; [done|]. by apply elem_of_map_to_list.
  - intros Hinj arg_id name [[v Hv] ->]%Hname. rewrite Hv.
    unfold input_kwargs_to_rhs_inner.
    apply lookup_dict_of_pairs.
    + rewrite <- list_fmap_compose.
      apply NoDup_fmap_2_strong; [|apply NoDup_map_to_list].
      intros [i vi] [j vj] Hi%elem_of_map_to_list Hj%elem_of_map_to_list.
      cbn. intros [= Heq].
      assert (i = j) as -> by (apply Hinj; [by eexists|by eexists|done]).
      by assert (vi = vj) as -> by congruence.
    + apply list_elem_of_fmap. exists (arg_id, v). split; [done|].
      by apply elem_of_map_to_list.
Qed.

End Reassembly.

(** * Properties of the measurement *)

Section Rounds.
Context {W T F R : Type}.
Variable time : W → T * W.
Variable rhs_clbl : M W unit.
Variable t_zero : T.
Variables t_add t_sub : T → T → T.
Variable t_lt : T → Z → bool.
Variable rate : F → nat → T → exn + R.

Abbreviation call_rhs_clbl' := (call_rhs_clbl rhs_clbl).
Abbreviation warmup_rounds' := (warmup_rounds time rhs_clbl t_add t_sub t_lt).
Abbreviation timing_rounds' := (timing_rounds time rhs_clbl t_add t_sub t_lt).
Abbreviation get_flop_rate_rounds' :=
  (get_flop_rate_rounds time rhs_clbl t_zero t_add t_sub t_lt rate).

Implicit Types st : bench W.

(** The bounds on the rounds are those of the counters: rounds allowed
    beyond them are never made, whatever the clock and the benchmark do. *)
Lemma warmup_rounds_fuel fuel fuel' i t st :
  20 ≤ i + fuel → 20 ≤ i + fuel' →
  warmup_rounds' fuel i t st = warmup_rounds' fuel' i t st.
Proof.
  revert fuel' i t st. induction fuel as [|fuel IH]; intros fuel' i t st H1 H2.
  - destruct fuel' as [|fuel']; [done|]. cbn [warmup_rounds].
    by rewrite (proj2 (Nat.ltb_ge i 20)) by lia.
  - destruct fuel' as [|fuel']; cbn [warmup_rounds].
    + by rewrite (proj2 (Nat.ltb_ge i 20)) by lia.
    + destruct ((i <? 20) && t_lt t 2); [|done]. unfold bind.
      destruct (call_time time st) as [[e|t1] st1]; [done|].
      destruct (call_rhs_clbl' st1) as [[e|[]] st2]; [done|].
      destruct (call_time time st2) as [[e|t2] st3]; [done|].
      apply IH; lia.
Qed.

Lemma timing_rounds_fuel fuel fuel' i t st :
  100 ≤ i + 40 * fuel → 100 ≤ i + 40 * fuel' →
  timing_rounds' fuel i t st = timing_rounds' fuel' i t st.
Proof.
  revert fuel' i t st. induction fuel as [|fuel IH]; intros fuel' i t st H1 H2.
  - destruct fuel' as [|fuel']; [done|]. cbn [timing_rounds].
    by rewrite (proj2 (Nat.ltb_ge i 100)) by lia.
  - destruct fuel' as [|fuel']; cbn [timing_rounds].
    + by rewrite (proj2 (Nat.ltb_ge i 100)) by lia.
    + destruct ((i <? 100) && t_lt t 5); [|done]. unfold bind.
      destruct (call_time time st) as [[e|t1] st1]; [done|].
      destruct (for_each (λ _, call_rhs_clbl') (seq 0 40) st1)
        as [[e|[]] st2]; [done|].
      destruct (call_time time st2) as [[e|t2] st3]; [done|].
      apply IH; lia.
Qed.

Hypothesis rhs_clbl_returns : ∀ w, (rhs_clbl w).1 = inr tt.

Lemma call_time_calls st :
  ∃ t st', call_time time st = (inr t, st') ∧ rhs_calls st' = rhs_calls st.
Proof.
  unfold call_time. destruct (time (bench_world st)) as [t w]. by eexists _, _.
Qed.

Lemma call_rhs_clbl_calls st :
  ∃ st', call_rhs_clbl' st = (inr tt, st')
         ∧ rhs_calls st' = S (rhs_calls st).
Proof.
  unfold call_rhs_clbl. pose proof (rhs_clbl_returns (bench_world st)) as Hr.
  destruct (rhs_clbl (bench_world st)) as [r w]. cbn in Hr. subst r.
  by eexists.
Qed.

Lemma for_each_call_rhs_clbl {X} (l : list X) st :
  ∃ st', for_each (λ _, call_rhs_clbl') l st = (inr tt, st')
         ∧ rhs_calls st' = rhs_calls st + length l.
Proof.
  revert st. induction l as [|x l IH]; intros st.
  - exists st. split; [done|]. cbn. lia.
  - cbn [for_each]. unfold bind.
    destruct (call_rhs_clbl_calls st) as (st1 & -> & H1).
    destruct (IH st1) as (st' & -> & H'). exists st'. split; [done|].
    cbn. lia.
Qed.

(** The warm-up loop returns, after [i' - i] invocations; it has made at
    least one round if its condition held at the start, and when 20 rounds
    were allowed its condition is false at the end. *)
Lemma warmup_rounds_spec fuel i t st :
  ∃ i' t' st',
    warmup_rounds' fuel i t st = (inr (i', t'), st')
    ∧ i ≤ i' ≤ i + fuel
    ∧ rhs_calls st' = rhs_calls st + (i' - i)
    ∧ (0 < fuel → i < 20 → t_lt t 2 = true → i < i')
    ∧ (i ≤ 20 → i' ≤ 20)
    ∧ (20 ≤ i + fuel → (i' <? 20) && t_lt t' 2 = false).
Proof.
  revert i t st. induction fuel as [|fuel IH]; intros i t st.
  - exists i, t, st. split_and!; try done; try lia.
    intros Hi. apply andb_false_iff. left. apply Nat.ltb_ge. lia.
  - cbn [warmup_rounds].
    destruct ((i <? 20) && t_lt t 2) eqn:Hcond.
    + apply andb_true_iff in Hcond as [Hi%Nat.ltb_lt Ht].
      unfold bind.
      destruct (call_time_calls st) as (t1 & st1 & -> & H1).
      destruct (call_rhs_clbl_calls st1) as (st2 & -> & H2).
      destruct (call_time_calls st2) as (t2 & st3 & -> & H3).
      destruct (IH (i + 1) (t_add t (t_sub t2 t1)) st3)
        as (i' & t' & st' & -> & Hi' & Hcalls & _ & Hle & Hexit).
      exists i', t', st'. split_and!; try done; try lia.
      intros ?. apply Hexit. lia.
    + exists i, t, st. split_and!; try done; try lia.
      intros _ Hi%Nat.ltb_lt Ht. by rewrite Hi, Ht in Hcond.
Qed.

(** The timing loop returns, after [n] rounds of 40 invocations. *)
Lemma timing_rounds_spec fuel i t st :
  ∃ n t' st',
    timing_rounds' fuel i t st = (inr (i + 40 * n, t'), st')
    ∧ n ≤ fuel
    ∧ rhs_calls st' = rhs_calls st + 40 * n
    ∧ (0 < fuel → i < 100 → t_lt t 5 = true → 0 < n)
    ∧ (0 < n → i + 40 * (n - 1) < 100)
    ∧ (100 ≤ i + 40 * fuel → (i + 40 * n <? 100) && t_lt t' 5 = false).
Proof.
  revert i t st. induction fuel as [|fuel IH]; intros i t st.
  - exists 0, t, st. rewrite Nat.add_0_r. split_and!; try done; try lia.
    intros Hi. apply andb_false_iff. left. apply Nat.ltb_ge. lia.
  - cbn [timing_rounds].
    destruct ((i <? 100) && t_lt t 5) eqn:Hcond.
    + apply andb_true_iff in Hcond as [Hi%Nat.ltb_lt Ht].
      unfold bind.
      destruct (call_time_calls st) as (t1 & st1 & -> & H1).
      destruct (for_each_call_rhs_clbl (seq 0 40) st1) as (st2 & -> & H2).
      destruct (call_time_calls st2) as (t2 & st3 & -> & H3).
      destruct (IH (i + 40) (t_add t (t_sub t2 t1)) st3)
        as (n & t' & st' & Hrun & Hn & Hcalls & _ & Hlast & Hexit).
      exists (S n), t', st'.
      replace (i + 40 * S n) with (i + 40 + 40 * n) by lia.
      rewrite length_seq in H2.
      split_and!; try done; try lia.
      intros ?. apply Hexit. lia.
    + exists 0, t, st. rewrite Nat.add_0_r. split_and!; try done; try lia.
      intros _ Hi%Nat.ltb_lt Ht. by rewrite Hi, Ht in Hcond.
Qed.

(** X10. When the benchmark itself does not raise, the rounds of
    [get_flop_rate] return after at least 41 and at most 140 invocations of
    it: between 1 and 20 to warm up, then 40, 80 or 120 that are timed, and
    the rate is computed from the number of timed invocations.  The timed
    rounds stop short of 120 invocations only once the time accumulated is
    no longer below 5. *)
Theorem benchmark_is_invoked_between_41_and_140_times (flops : F)
    (st : bench W) :
  t_lt t_zero 2 = true →
  t_lt t_zero 5 = true →
  ∃ i_warmup i_timing t_rhs st',
    get_flop_rate_rounds time rhs_clbl t_zero t_add t_sub t_lt rate flops st
    = (rate flops i_timing t_rhs, st')
    ∧ 1 ≤ i_warmup ≤ 20
    ∧ (i_timing = 40 ∨ i_timing = 80 ∨ i_timing = 120)
    ∧ (i_timing = 120 ∨ t_lt t_rhs 5 = false)
    ∧ rhs_calls st' = rhs_calls st + i_warmup + i_timing.
Proof.
  intros H2 H5. unfold get_flop_rate_rounds, bind.
  destruct (warmup_rounds_spec 20 0 t_zero st)
    as (i_warmup & t_warmup & st1 & -> & Hi & Hcalls1 & Hpos & Hle & _).
  destruct (timing_rounds_spec 3 0 t_zero st1)
    as (n & t_rhs & st' & -> & Hn & Hcalls & Hnpos & Hlast & Hexit).
  exists i_warmup, (40 * n), t_rhs, st'. cbn [fst snd].
  specialize (Hpos ltac:(lia) ltac:(lia) H2).
  specialize (Hnpos ltac:(lia) ltac:(lia) H5).
  specialize (Hexit ltac:(lia)).
  split_and!.
  - unfold lift. by rewrite Nat.add_0_l.
  - lia.
  - lia.
  - lia.
  - apply andb_false_iff in Hexit as [Hexit%Nat.ltb_ge|Hexit]; [|by right].
    left. lia.
  - lia.
Qed.

End Rounds.

(** * Properties of the run *)

(** ** Sorting by an integer key *)

Lemma insert_on_perm {A} (key : A → nat) x (l : list A) :
  insert_on key x l ≡ₚ x :: l.
Proof.
  induction l as [|y l IH]; cbn; [done|].
  destruct (key x <=? key y); [done|].
  rewrite IH. apply Permutation_swap.
Qed.

Lemma sorted_on_perm {A} (key : A → nat) (l : list A) : sorted_on key l ≡ₚ l.
Proof.
  induction l as [|x l IH]; cbn; [done|].
  rewrite insert_on_perm. by rewrite IH.
Qed.

Lemma insert_on_StronglySorted {A} (key : A → nat) x (l : list A) :
  StronglySorted (λ a b, key a ≤ key b) l →
  StronglySorted (λ a b, key a ≤ key b) (insert_on key x l).
Proof.
  induction 1 as [|y l Hl IH Hy]; cbn; [by repeat constructor|].
  destruct (key x <=? key y) eqn:Hxy.
  - apply Nat.leb_le in Hxy. constructor; [by constructor|].
    constructor; [done|].
    eapply Forall_impl; [exact Hy|]. cbn. intros z Hz. lia.
  - apply Nat.leb_gt in Hxy. constructor; [done|].
    apply Forall_forall. intros z Hz.
    rewrite insert_on_perm in Hz. apply elem_of_cons in Hz as [->|Hz]; [lia|].
    by apply (proj1 (Forall_forall _ _) Hy).
Qed.

Lemma sorted_on_StronglySorted {A} (key : A → nat) (l : list A) :
  StronglySorted (λ a b, key a ≤ key b) (sorted_on key l).
Proof.
  induction l as [|x l IH]; cbn; [constructor|].
  by apply insert_on_StronglySorted.
Qed.

(** The sort is stable: the elements of one key keep their order. *)
Lemma insert_on_filter {A} (key : A → nat) (n : nat) x (l : list A) :
  filter (λ a, key a = n) (insert_on key x l)
  = filter (λ a, key a = n) (x :: l).
Proof.
  induction l as [|y l IH]; cbn [insert_on]; [done|].
  destruct (key x <=? key y) eqn:Hxy; [done|].
  apply Nat.leb_gt in Hxy.
  rewrite (filter_cons _ y), IH, !(filter_cons _ x), (filter_cons _ y).
  destruct (decide (key x = n)), (decide (key y = n)); try done. lia.
Qed.

Lemma sorted_on_filter {A} (key : A → nat) (n : nat) (l : list A) :
  filter (λ a, key a = n) (sorted_on key l) = filter (λ a, key a = n) l.
Proof.
  induction l as [|x l IH]; cbn [sorted_on foldr]; [done|].
  rewrite insert_on_filter, !(filter_cons _ x).
  fold (sorted_on key l). by rewrite IH.
Qed.

(** ** Lists built by nested loops *)

Lemma enumerate_nat_snd {A} (l : list A) : (enumerate_nat l).*2 = l.
Proof.
  unfold enumerate_nat. apply list_eq. intros i.
  rewrite list_lookup_fmap, list_lookup_imap. by destruct (l !! i).
Qed.

Lemma elem_of_enumerate_nat {A} (l : list A) i a :
  (i, a) ∈ enumerate_nat l ↔ l !! i = Some a.
Proof.
  unfold enumerate_nat. rewrite elem_of_lookup_imap. split.
  - by intros (i' & a' & [= -> ->] & Hl).
  - intros Hl. by exists i, a.
Qed.

Lemma bind_singleton {A B} (F : A → list B) (a : A) : [a] ≫= F = F a.
Proof. cbn. apply app_nil_r. Qed.

Lemma fmap_bind_pairs {A B C D} (G : A → B → list (C * D))
    (G' : B → list D) (l : list (A * B)) :
  (∀ a b, (G a b).*2 = G' b) →
  (l ≫= λ '(a, b), G a b).*2 = l.*2 ≫= G'.
Proof.
  intros HG. induction l as [|[a b] l IH]; [done|].
  rewrite fmap_cons, !bind_cons, fmap_app, IH. by rewrite HG.
Qed.

Lemma filter_snd {A B} (Q : B → Prop) `{∀ b, Decision (Q b)}
    (l : list (A * B)) :
  (filter (λ x, Q x.2) l).*2 = filter Q l.*2.
Proof.
  induction l as [|[a b] l IH]; [done|].
  rewrite fmap_cons, !filter_cons. cbn [snd].
  destruct (decide (Q b)); [rewrite fmap_cons|]; by rewrite IH.
Qed.

Lemma filter_bind {A B} (P : B → Prop) `{∀ b, Decision (P b)}
    (Q : A → Prop) `{∀ a, Decision (Q a)} (F : A → list B) (l : list A) :
  (∀ a b, b ∈ F a → P b ↔ Q a) →
  filter P (l ≫= F) = filter Q l ≫= F.
Proof.
  intros HPQ. induction l as [|a l IH]; [done|].
  rewrite bind_cons, filter_app, IH, filter_cons.
  assert (filter P (F a) = if decide (Q a) then F a else []) as ->.
  { pose proof (HPQ a) as Ha. induction (F a) as [|b bs IHb].
    - by destruct (decide (Q a)).
    - rewrite filter_cons, IHb.
      2: { intros b' Hb'. apply Ha. by right. }
      specialize (Ha b ltac:(left)).
      destruct (decide (P b)), (decide (Q a)); tauto. }
  destruct (decide (Q a)); [by rewrite bind_cons|done].
Qed.

Lemma StronglySorted_bind {A B} (key : A → nat) (key' : B → nat)
    (F : A → list B) (l : list A) :
  (∀ a b, b ∈ F a → key' b = key a) →
  StronglySorted (λ a1 a2, key a1 ≤ key a2) l →
  StronglySorted (λ b1 b2, key' b1 ≤ key' b2) (l ≫= F).
Proof.
  intros Hkey. induction 1 as [|a l Hl IH Ha]; [constructor|].
  rewrite bind_cons. apply StronglySorted_app_2; [| |done].
  - intros b1 b2 Hb1 (a2 & Hb2 & Ha2)%list_elem_of_bind.
    rewrite (Hkey a b1 Hb1), (Hkey a2 b2 Hb2).
    by apply (proj1 (Forall_forall _ _) Ha).
  - pose proof (Hkey a) as Hall. induction (F a) as [|b bs IHb]; [constructor|].
    constructor.
    + apply IHb. intros b' Hb'. apply Hall. by right.
    + apply Forall_forall. intros b' Hb'.
      rewrite (Hall b) by left. rewrite (Hall b') by (by right). done.
Qed.

(** ** Assignments to the cells of a table *)

Lemma foldl_insert_lookup `{Countable K} {V} (kvs : list (K * V))
    (m : gmap K V) k v :
  foldl (λ m kv, <[kv.1 := kv.2]> m) m kvs !! k = Some v →
  m !! k = Some v ∨ (k, v) ∈ kvs.
Proof.
  revert m. induction kvs as [|[k' v'] kvs IH]; intros m; cbn; [by left|].
  intros [Hm|Hin]%IH; [|by right; right].
  destruct (decide (k' = k)) as [->|Hne].
  - rewrite lookup_insert_eq in Hm. injection Hm as ->. right. left.
  - rewrite lookup_insert_ne in Hm by done. by left.
Qed.

Lemma foldl_insert_is_Some `{Countable K} {V} (kvs : list (K * V))
    (m : gmap K V) k :
  is_Some (m !! k) ∨ k ∈ kvs.*1 →
  is_Some (foldl (λ m kv, <[kv.1 := kv.2]> m) m kvs !! k).
Proof.
  revert m. induction kvs as [|[k' v'] kvs IH]; intros m; cbn.
  - intros [?|?%elem_of_nil]; done.
  - intros Hk. apply IH.
    destruct (decide (k' = k)) as [->|Hne].
    + left. rewrite lookup_insert_eq. by eexists.
    + rewrite lookup_insert_ne by done.
      destruct Hk as [?|[?|?]%elem_of_cons]; [by left|congruence|by right].
Qed.

Lemma foldl_insert_None `{Countable K} {V} (kvs : list (K * V))
    (m : gmap K V) k :
  m !! k = None → k ∉ kvs.*1 →
  foldl (λ m kv, <[kv.1 := kv.2]> m) m kvs !! k = None.
Proof.
  intros Hm Hk.
  destruct (foldl _ m kvs !! k) as [v|] eqn:Hv; [|done].
  apply foldl_insert_lookup in Hv as [?|Hin]; [congruence|].
  exfalso. apply Hk. apply list_elem_of_fmap. by exists (k, v).
Qed.

Section Schedule.
Context {W actx_t R : Type}.
Variable issubclass : actx_t → actx_t → bool.
Variables PytatoJAXArrayContext PytatoCUDAGraphArrayContext : actx_t.
Variable get_flop_rate : actx_t → string → Z → Z → M W R.

Abbreviation priority :=
  (_get_actx_t_priority issubclass PytatoJAXArrayContext
     PytatoCUDAGraphArrayContext).
Abbreviation main_flop_rate' :=
  (main_flop_rate issubclass PytatoJAXArrayContext
     PytatoCUDAGraphArrayContext get_flop_rate).
Abbreviation assignments' :=
  (assignments issubclass PytatoJAXArrayContext PytatoCUDAGraphArrayContext).
Abbreviation cell := (nat * nat * nat * nat)%type.
Abbreviation measurement := (actx_t * string * Z * Z)%type.

(** What a loop has done when it has assigned the cells of [l]: there is
    a result for every entry of [l], assigned to its cell and recorded with
    its measurement, in the order of [l]. *)
#[warnings="-inconsistent-scopes"]
Abbreviation assigned l s s' :=
  (∃ rates : list R,
     length rates = length l
     ∧ flop_rate s' = foldl (λ m kv, <[kv.1 := kv.2]> m) (flop_rate s)
                        (zip l.*1 rates)
     ∧ measured s' = measured s ++ zip l.*2 rates).

Implicit Types st : run_state W actx_t R.
Implicit Types equations : list string.
Implicit Types dims degrees : list Z.
Implicit Types actx_ts : list actx_t.

Hypothesis get_flop_rate_returns :
  ∀ actx_t0 equation dim degree w,
    is_inr (get_flop_rate actx_t0 equation dim degree w).1 = true.

Lemma for_each_assigned {X} (body : X → M (run_state W actx_t R) unit)
    (F : X → list (cell * measurement)) (l : list X) :
  (∀ x st, ∃ st', body x st = (inr tt, st') ∧ assigned (F x) st st') →
  ∀ st, ∃ st', for_each body l st = (inr tt, st') ∧ assigned (l ≫= F) st st'.
Proof.
  intros Hbody. induction l as [|x l IH]; intros st.
  - exists st. split; [done|]. exists []. split_and!; [done|done|].
    cbn. by rewrite app_nil_r.
  - cbn [for_each]. unfold bind.
    destruct (Hbody x st) as (st1 & -> & rates1 & Hlen1 & Htbl1 & Hlog1).
    destruct (IH st1) as (st' & -> & rates2 & Hlen2 & Htbl2 & Hlog2).
    exists st'. split; [done|]. exists (rates1 ++ rates2).
    rewrite bind_cons, !fmap_app.
    rewrite !zip_with_app by (by rewrite length_fmap).
    split_and!.
    + rewrite !length_app. congruence.
    + by rewrite foldl_app, <-Htbl1.
    + by rewrite Hlog2, Hlog1, <-app_assoc.
Qed.

(** The loop nest assigns the cells of [assignments], in that order. *)
Lemma main_flop_rate_assigned equations dims degrees actx_ts st :
  ∃ st',
    main_flop_rate' equations dims degrees actx_ts st = (inr tt, st')
    ∧ assigned (assignments' equations dims degrees actx_ts)
        (set_flop_rate (λ _, ∅) st) st'.
Proof.
  unfold main_flop_rate, assignments. unfold bind at 1. cbn [modify].
  apply for_each_assigned. intros [iactx_t actx_t0] st1.
  apply for_each_assigned. intros [idim dim] st2.
  apply for_each_assigned. intros [iequation equation] st3.
  apply for_each_assigned. intros [idegree degree] st4.
  unfold bind, call_get_flop_rate, modify.
  pose proof (get_flop_rate_returns actx_t0 equation dim degree
                (run_world st4)) as Hret.
  destruct (get_flop_rate actx_t0 equation dim degree (run_world st4))
    as [[e|rate] w]; [done|].
  eexists. split; [reflexivity|]. exists [rate]. by split_and!.
Qed.

Lemma elem_of_assignments equations dims degrees actx_ts
    (c : cell) (m : measurement) :
  (c, m) ∈ assignments' equations dims degrees actx_ts
  ↔ actx_ts !! c.1.1.1 = Some m.1.1.1
    ∧ dims !! c.1.1.2 = Some m.1.2
    ∧ equations !! c.1.2 = Some m.1.1.2
    ∧ degrees !! c.2 = Some m.2.
Proof.
  destruct c as [[[i j] k] l], m as [[[a e] d] p]. cbn [fst snd].
  unfold assignments. rewrite list_elem_of_bind. split.
  - intros ([i' a'] & Hin & Ha).
    rewrite sorted_on_perm in Ha. apply elem_of_enumerate_nat in Ha.
    apply list_elem_of_bind in Hin as ([j' d'] & Hin & Hd%elem_of_enumerate_nat).
    apply list_elem_of_bind in Hin as ([k' e'] & Hin & He%elem_of_enumerate_nat).
    apply list_elem_of_bind in Hin as ([l' p'] & Hin & Hp%elem_of_enumerate_nat).
    apply list_elem_of_singleton in Hin. by simplify_eq.
  - intros (Ha & Hd & He & Hp). exists (i, a). split.
    2: { rewrite sorted_on_perm. by apply elem_of_enumerate_nat. }
    apply list_elem_of_bind. exists (j, d).
    split; [|by apply elem_of_enumerate_nat].
    apply list_elem_of_bind. exists (k, e).
    split; [|by apply elem_of_enumerate_nat].
    apply list_elem_of_bind. exists (l, p).
    split; [|by apply elem_of_enumerate_nat].
    by apply list_elem_of_singleton.
Qed.

(** The measurements of the assignments are the combinations, with the
    contexts in the order of their priority. *)
Lemma assignments_measurements equations dims degrees actx_ts :
  (assignments' equations dims degrees actx_ts).*2
  = (sorted_on (λ k, priority k.2) (enumerate_nat actx_ts)).*2
    ≫= λ actx_t0, combinations equations dims degrees [actx_t0].
Proof.
  unfold assignments. apply fmap_bind_pairs. intros i a.
  unfold combinations. rewrite bind_singleton.
  rewrite <-(enumerate_nat_snd dims) at 2.
  apply fmap_bind_pairs. intros j d.
  rewrite <-(enumerate_nat_snd equations) at 2.
  apply fmap_bind_pairs. intros k e.
  rewrite <-(enumerate_nat_snd degrees) at 2.
  apply fmap_bind_pairs. by intros l p.
Qed.

Lemma combinations_priority equations dims degrees actx_t0
    (m : measurement) :
  m ∈ combinations equations dims degrees [actx_t0] → m.1.1.1 = actx_t0.
Proof.
  unfold combinations. rewrite bind_singleton.
  intros (d & Hin & _)%list_elem_of_bind.
  apply list_elem_of_bind in Hin as (e & Hin & _).
  apply list_elem_of_bind in Hin as (p & Hin & _).
  apply list_elem_of_singleton in Hin. by subst m.
Qed.

Lemma combinations_bind equations dims degrees actx_ts :
  combinations equations dims degrees actx_ts
  = actx_ts ≫= λ actx_t0, combinations equations dims degrees [actx_t0].
Proof.
  unfold combinations. induction actx_ts as [|a l IH]; [done|].
  rewrite bind_cons, IH, bind_cons. by rewrite bind_singleton.
Qed.

(** X11. When no measurement raises, the loop nest returns with every
    cell of the table assigned, and a cell holds a result that
    [get_flop_rate] returned during this run for the context, equation,
    dimension and degree at the cell's own indices in the arguments of
    [main]: the contexts are measured in the order of their priority, and
    their results are stored in the order in which they were given.  No cell
    outside the table is assigned. *)
Theorem every_cell_holds_its_own_measurement equations dims degrees actx_ts
    (st : run_state W actx_t R) :
  ∃ st',
    main_flop_rate issubclass PytatoJAXArrayContext
      PytatoCUDAGraphArrayContext get_flop_rate equations dims degrees
      actx_ts st
    = (inr tt, st')
    ∧ ∀ i j k l,
        match actx_ts !! i, dims !! j, equations !! k, degrees !! l with
        | Some actx_t0, Some dim, Some equation, Some degree =>
            ∃ rate,
              flop_rate st' !! (i, j, k, l) = Some rate
              ∧ ((actx_t0, equation, dim, degree), rate)
                ∈ drop (length (measured st)) (measured st')
        | _, _, _, _ => flop_rate st' !! (i, j, k, l) = None
        end.
Proof.
  destruct (main_flop_rate_assigned equations dims degrees actx_ts st)
    as (st' & Hmain & rates & Hlen & Htbl & Hlog).
  exists st'. split; [done|]. intros i j k l.
  cbn [set_flop_rate flop_rate measured] in Htbl, Hlog.
  set (sch := assignments' equations dims degrees actx_ts) in *.
  assert ((zip sch.*1 rates).*1 = sch.*1) as Hkeys
    by (apply fst_zip; rewrite length_fmap; lia).
  assert (∀ a d e p,
            actx_ts !! i = Some a → dims !! j = Some d →
            equations !! k = Some e → degrees !! l = Some p →
            ∃ rate,
              flop_rate st' !! (i, j, k, l) = Some rate
              ∧ ((a, e, d, p), rate)
                ∈ drop (length (measured st)) (measured st')) as Hin.
  { intros a d e p Ha Hd He Hp.
    assert (((i, j, k, l), (a, e, d, p)) ∈ sch) as Hsch
      by (by apply elem_of_assignments).
    destruct (foldl_insert_is_Some (zip sch.*1 rates) ∅ (i, j, k, l))
      as [rate Hrate].
    { right. rewrite Hkeys. apply list_elem_of_fmap.
      by exists ((i, j, k, l), (a, e, d, p)). }
    exists rate. rewrite Htbl. split; [done|].
    apply foldl_insert_lookup in Hrate as [Hrate|Hrate];
      [by rewrite lookup_empty in Hrate|].
    apply list_elem_of_lookup in Hrate as [n Hn].
    apply lookup_zip_with_Some in Hn as (c & rate' & [= <- <-] & Hc & Hr).
    rewrite list_lookup_fmap in Hc.
    destruct (sch !! n) as [[c' m']|] eqn:Hcm; [|done].
    injection Hc as ->.
    pose proof (list_elem_of_lookup_2 _ _ _ Hcm) as Hm'.
    apply elem_of_assignments in Hm' as (Ha' & Hd' & He' & Hp').
    cbn [fst snd] in *.
    destruct m' as [[[a' e'] d'] p']. cbn [fst snd] in *.
    assert (a' = a) as -> by congruence. assert (d' = d) as -> by congruence.
    assert (e' = e) as -> by congruence. assert (p' = p) as -> by congruence.
    rewrite Hlog, drop_app_length.
    apply (list_elem_of_lookup_2 _ n).
    apply lookup_zip_with_Some. exists (a, e, d, p), rate.
    split_and!; [done| |done].
    by rewrite list_lookup_fmap, Hcm. }
  assert (¬ (is_Some (actx_ts !! i) ∧ is_Some (dims !! j)
             ∧ is_Some (equations !! k) ∧ is_Some (degrees !! l)) →
          flop_rate st' !! (i, j, k, l) = None) as Hout.
  { intros Hnot. rewrite Htbl. apply foldl_insert_None; [done|].
    rewrite Hkeys. intros ([c m] & Hc & Hm)%list_elem_of_fmap.
    cbn in Hc. subst c. apply elem_of_assignments in Hm as (? & ? & ? & ?).
    apply Hnot. by split_and!. }
  destruct (actx_ts !! i) as [a|] eqn:Ha; [|apply Hout; by intros ([] & _)].
  destruct (dims !! j) as [d|] eqn:Hd; [|apply Hout; by intros (_ & [] & _)].
  destruct (equations !! k) as [e|] eqn:He;
    [|apply Hout; by intros (_ & _ & [] & _)].
  destruct (degrees !! l) as [p|] eqn:Hp;
    [|apply Hout; by intros (_ & _ & _ & [])].
  by apply Hin.
Qed.

(** X12. When no measurement raises, the measurements that the loop
    nest makes are all combinations of a context, a dimension, an equation
    and a degree, each as often as the arguments give it; they are made in
    the order of the priorities of their contexts, so that the classes of
    PytatoJAXArrayContext come after all others but those of
    PytatoCUDAGraphArrayContext, which come last; and among contexts of one
    priority the order of the arguments is kept. *)
Theorem measurements_run_in_priority_order equations dims degrees actx_ts
    (st : run_state W actx_t R) :
  ∃ st' new,
    main_flop_rate issubclass PytatoJAXArrayContext
      PytatoCUDAGraphArrayContext get_flop_rate equations dims degrees
      actx_ts st
    = (inr tt, st')
    ∧ measured st' = measured st ++ new
    ∧ new.*1 ≡ₚ combinations equations dims degrees actx_ts
    ∧ StronglySorted (λ m1 m2, priority m1.1.1.1 ≤ priority m2.1.1.1) new.*1
    ∧ ∀ n,
        filter (λ m, priority m.1.1.1 = n) new.*1
        = filter (λ m, priority m.1.1.1 = n)
            (combinations equations dims degrees actx_ts).
Proof.
  destruct (main_flop_rate_assigned equations dims degrees actx_ts st)
    as (st' & Hmain & rates & Hlen & _ & Hlog).
  cbn [set_flop_rate measured] in Hlog.
  exists st', (zip (assignments' equations dims degrees actx_ts).*2 rates).
  split; [done|]. split; [done|].
  rewrite fst_zip by (rewrite length_fmap; lia).
  rewrite assignments_measurements, combinations_bind.
  set (sorted_ts := sorted_on (λ k, priority k.2) (enumerate_nat actx_ts)).
  set (G := λ actx_t0, combinations equations dims degrees [actx_t0]).
  assert (∀ a m, m ∈ G a → priority m.1.1.1 = priority a) as Hprio.
  { intros a m Hm. by rewrite (combinations_priority _ _ _ _ _ Hm). }
  split_and!.
  - assert (sorted_ts.*2 ≡ₚ actx_ts) as Hperm.
    { unfold sorted_ts. rewrite sorted_on_perm. by rewrite enumerate_nat_snd. }
    by rewrite Hperm.
  - apply (StronglySorted_bind priority); [done|].
    unfold sorted_ts.
    generalize (sorted_on_StronglySorted (λ k : nat * actx_t, priority k.2)
                  (enumerate_nat actx_ts)).
    generalize (sorted_on (λ k : nat * actx_t, priority k.2)
                  (enumerate_nat actx_ts)).
    intros l. induction 1 as [|x l Hl IH Hx]; [constructor|].
    rewrite fmap_cons. constructor; [done|].
    apply Forall_fmap. eapply Forall_impl; [exact Hx|]. done.
  - intros n.
    rewrite !(filter_bind _ (λ a, priority a = n)).
    2, 3: by intros a m ->%Hprio.
    f_equal. unfold sorted_ts.
    rewrite <-(enumerate_nat_snd actx_ts) at 2.
    rewrite <-!(filter_snd (λ a, priority a = n)).
    by rewrite (sorted_on_filter (λ k : nat * actx_t, priority k.2)).
Qed.

End Schedule.

(** * Properties of the command line *)

Lemma collect_cons {X Y} (G : X → exn + Y) (x : X) (l : list X) :
  collect G (x :: l)
  = match G x with
    | inl e => inl e
    | inr y => match collect G l with
               | inl e => inl e
               | inr ys => inr (y :: ys)
               end
    end.
Proof.
  unfold collect. cbn. unfold bind, lift. destruct (G x) as [e|y]; [done|].
  by destruct (list_comprehension _ l tt) as [[e|ys] []].
Qed.

Lemma collect_inr_inv {X Y} (G : X → exn + Y) (l : list X) (ys : list Y) :
  collect G l = inr ys ↔ Forall2 (λ x y, G x = inr y) l ys.
Proof.
  revert ys. induction l as [|x l IH]; intros ys.
  - split; [intros [= <-]; constructor|by inversion 1].
  - rewrite collect_cons. split.
    + destruct (G x) as [e|y] eqn:Hx; [done|].
      destruct (collect G l) as [e|ys'] eqn:Hl; [done|].
      intros [= <-]. constructor; [done|]. by apply IH.
    + inversion 1 as [|? y ? ys' Hx Hl]; subst. rewrite Hx.
      apply IH in Hl. by rewrite Hl.
Qed.

Lemma collect_inl {X Y} (G : X → exn + Y) (l : list X) (e : exn) :
  collect G l = inl e → ∃ x, x ∈ l ∧ G x = inl e.
Proof.
  induction l as [|x l IH]; [done|]. rewrite collect_cons.
  destruct (G x) as [e'|y] eqn:Hx.
  - intros [= ->]. exists x. split; [left|done].
  - destruct (collect G l) as [e'|ys]; [|done].
    intros [= ->]. destruct (IH eq_refl) as (x' & Hin & Hx').
    exists x'. split; [by right|done].
Qed.

Lemma getitem_inr {K V} `{EqDecision K} (d : list (K * V)) (k : K) (v : V) :
  getitem d k = inr v → (k, v) ∈ d.
Proof.
  induction d as [|[k' v'] d IH]; [done|]. cbn.
  destruct (decide (k = k')) as [->|_].
  - intros [= ->]. left.
  - intros ?%IH. by right.
Qed.

Lemma getitem_inl {K V} `{EqDecision K} (d : list (K * V)) (k : K) (e : exn) :
  getitem d k = inl e → e = KeyError ∧ k ∉ d.*1.
Proof.
  induction d as [|[k' v'] d IH]; cbn.
  - intros [= <-]. split; [done|]. by intros ?%elem_of_nil.
  - destruct (decide (k = k')) as [->|Hne]; [done|].
    intros [-> Hk]%IH. split; [done|].
    by intros [?|?]%elem_of_cons.
Qed.

(** X13. The contexts are looked up under the pieces between the commas
    of [--actxs] exactly as typed.  When every piece is one of the four
    names, the columns of the tables are headed by the pieces, in their
    order; when one is not, be it for a blank after a comma, the lookup
    raises KeyError. *)
Theorem contexts_are_named_as_typed (actxs : string) :
  match actx_ts_of_actxs actxs with
  | inr actx_ts =>
      column_names actx_ts = inr (split_comma actxs)
      ∧ Forall (λ piece, piece ∈ _NAME_TO_ACTX_CLASS.*1) (split_comma actxs)
  | inl e =>
      e = KeyError
      ∧ Exists (λ piece, piece ∉ _NAME_TO_ACTX_CLASS.*1) (split_comma actxs)
  end.
Proof.
  unfold actx_ts_of_actxs, column_names.
  destruct (collect _ (split_comma actxs)) as [e|actx_ts] eqn:Hcollect.
  - apply collect_inl in Hcollect as (piece & Hin & [-> Hpiece]%getitem_inl).
    split; [done|]. apply Exists_exists. by exists piece.
  - apply collect_inr_inv in Hcollect. split.
    + apply collect_inr_inv.
      induction Hcollect as [|piece c pieces cs Hc _ IH]; constructor; [|done].
      apply getitem_inr in Hc. clear -Hc.
      repeat (apply elem_of_cons in Hc as [[= -> ->]|Hc]; [done|]).
      by apply elem_of_nil in Hc.
    + induction Hcollect as [|piece c pieces cs Hc _ IH]; constructor; [|done].
      apply getitem_inr in Hc. apply list_elem_of_fmap. by exists (piece, c).
Qed.

(** ** The further properties on the small instances *)

(** A result that evaluates to a value in some state is that value in that
    state; a lookup that finds something finds it. *)
Lemma result_from_parts {E A S} (d : A) (p : (E + A) * S) :
  is_inr p.1 = true → p = (inr (from_inr d p.1), p.2).
Proof. by destruct p as [[e|a] s]. Qed.

Lemma Some_default {A} (d : A) (o : option A) :
  is_Some o → o = Some (default d o).
Proof. by intros [a ->]. Qed.

(** X1 on the instance: the unit of the first compilation is still
    registered after the compilation for a bare array. *)
Lemma registered_unit_is_kept_witness :
  ∃ c,
    program_cache demo_state1 !! demo_descriptor demo_state = Some c
    ∧ program_cache (demo_call demo_inner demo_bare [] demo_state1).2
        !! demo_descriptor demo_state
      = Some c.
Proof.
  pose proof (Some_default demo_bare_compiled
                (program_cache demo_state1 !! demo_descriptor demo_state)
                ltac:(apply (bool_decide_unpack _); run)) as Hc.
  eexists. split; [exact Hc|].
  unfold demo_call. by apply registered_unit_is_kept.
Defined.

(** X2 on the instance: the first compilation returns, and what it
    returns has passed the comparison. *)
Lemma returned_output_passed_validation_witness :
  ∃ output st',
    demo_call demo_inner demo_state [] demo_state0 = (inr output, st')
    ∧ demo_allclose (value_to_numpy demo_to_numpy output)
        (value_to_numpy demo_to_numpy (demo_f demo_state [])) = true
    ∧ f_calls st' = f_calls demo_state0 + 2.
Proof.
  pose proof (result_from_parts (VObject "NoneType")
                (demo_call demo_inner demo_state [] demo_state0)
                ltac:(run)) as Hcall.
  eexists _, _. split; [exact Hcall|].
  unfold demo_call in Hcall.
  eapply returned_output_passed_validation in Hcall
    as (Hclose & _ & Hcalls & _);
    [by split
    |run_inr (∅ : gmap arg_id (leaf demo_array Z), ∅ : descriptor)
    |run].
Defined.

(** X3 on the instance: a file beside the artifacts is as it was after a
    compilation. *)
Lemma only_artifact_paths_are_written_witness :
  files (demo_call demo_inner demo_state []
           (set_files (insert "/suite/notes.txt" (FText "notes")) demo_state0)).2
    !! "/suite/notes.txt"
  = Some (FText "notes").
Proof.
  unfold demo_call. rewrite only_artifact_paths_are_written; [run|].
  apply (bool_decide_unpack _). run.
Defined.


(** X6 on the instance: the nested output with three leaves is put
    together from three results, and not from one. *)
Lemma assemble_output_needs_a_result_per_leaf_witness :
  (∃ r,
     assemble_output (Scalar:=Z) (PVal (VArrays demo_nested_output))
       (flatten_values demo_nested_values) tt
     = (inr (VArrays r), tt)
     ∧ skeleton r = skeleton demo_nested_output)
  ∧ assemble_output (Scalar:=Z) (PVal (VArrays demo_nested_output))
      [demo_device [1]%Z] tt
    = (inl IndexError, tt).
Proof.
  unfold demo_nested_output. split.
  - apply (proj1 (assemble_output_needs_a_result_per_leaf (Scalar:=Z)
                    "Fields" _ (flatten_values demo_nested_values) tt)).
    apply (bool_decide_unpack _). run.
  - apply (proj2 (assemble_output_needs_a_result_per_leaf (Scalar:=Z)
                    "Fields" _ [demo_device [1]%Z] tt)).
    apply (bool_decide_unpack _). run.
Defined.

(** X7 on the instance: the one scalar argument is bound to the name of
    its placeholder. *)
Lemma placeholder_names_are_bound_witness :
  input_kwargs_to_rhs_inner
    ({[ [KInt 0] := LScalar "float64" 1%Z ]} : gmap arg_id (leaf demo_array Z))
    !! "_actx_in_0"
  = Some (LScalar "float64" 1%Z).
Proof.
  rewrite (proj2 (placeholder_names_are_bound
                    ({[ [KInt 0] := LScalar "float64" 1%Z ]}
                     : gmap arg_id (leaf demo_array Z)))
             ltac:(by intros i j [x [<- _]%lookup_singleton_Some]
                             [y [<- _]%lookup_singleton_Some] _)
             [KInt 0] "_actx_in_0").
  - apply lookup_singleton_eq.
  - unfold input_id_to_name_in_program.
    by rewrite map_lookup_imap, lookup_singleton_eq.
Defined.

(** X8 on the instance: a state and a keyword scalar are traced as a
    state of placeholders and a placeholder of shape [()]. *)
Lemma tracing_calls_f_on_named_placeholders_witness :
  trace (Ast:=string) demo_f demo_state demo_kwargs
    (from_inr (∅, ∅)
       (_get_arg_id_to_arg_and_arg_id_to_descr demo_state demo_kwargs)).1
    demo_state0
  = (inr (demo_f
            ((λ ia, placeholder_value ia.1 ia.2) <$> enumerate demo_state)
            ((λ kv, (kv.1, placeholder_value (KStr kv.1) kv.2))
               <$> demo_kwargs)),
     count_f_call demo_state0).
Proof.
  apply tracing_calls_f_on_named_placeholders.
  run_inr (∅ : gmap arg_id (leaf demo_array Z), ∅ : descriptor).
Defined.

(** X9 on the instance: an object under a keyword is refused, and the
    state of the first compilation is as it was. *)
Lemma unrecognized_argument_is_refused_witness :
  demo_call demo_inner demo_state [("options", VObject "dict")] demo_state1
  = (inl (ValueError "Argument to a compiled operator should be either a scalar, pt.Array or an array container."),
     demo_state1).
Proof.
  unfold demo_call.
  apply unrecognized_argument_is_refused with (arg := VObject "dict");
    [|reflexivity].
  apply elem_of_app. right. left.
Defined.


(** X10 on the instance: a benchmark of 700 milliseconds. *)
Lemma benchmark_is_invoked_between_41_and_140_times_witness :
  ∃ i_warmup i_timing t_rhs st',
    demo_rounds {| bench_world := 0%Z; rhs_calls := 0 |}
    = (demo_rate 1000000%Z i_timing t_rhs, st')
    ∧ 1 ≤ i_warmup ≤ 20
    ∧ (i_timing = 40 ∨ i_timing = 80 ∨ i_timing = 120)
    ∧ (i_timing = 120 ∨ (t_rhs <? 1000 * 5)%Z = false)
    ∧ rhs_calls st' = 0 + i_warmup + i_timing.
Proof.
  unfold demo_rounds.
  apply (benchmark_is_invoked_between_41_and_140_times (λ w : Z, (w, w))
           demo_rhs_clbl 0%Z Z.add Z.sub (λ t bound, (t <? 1000 * bound)%Z)
           demo_rate);
    [intros w; reflexivity|reflexivity|reflexivity].
Defined.

(** X11 on the instance: three contexts of which the first is the JAX
    context, two equations, two dimensions and three degrees. *)
Lemma every_cell_holds_its_own_measurement_witness :
  ∃ st',
    demo_main demo_run0 = (inr tt, st')
    ∧ ∀ i j k l,
        match [1; 0; 2] !! i, [2; 3]%Z !! j, ["wave"; "euler"] !! k,
              [1; 2; 3]%Z !! l with
        | Some actx_t0, Some dim, Some equation, Some degree =>
            ∃ rate,
              flop_rate st' !! (i, j, k, l) = Some rate
              ∧ ((actx_t0, equation, dim, degree), rate)
                ∈ drop (length (measured demo_run0)) (measured st')
        | _, _, _, _ => flop_rate st' !! (i, j, k, l) = None
        end.
Proof.
  unfold demo_main.
  apply (every_cell_holds_its_own_measurement demo_issubclass 1 2
           demo_get_flop_rate).
  intros actx_t0 equation dim degree w. reflexivity.
Defined.

(** X12 on the instance. *)
Lemma measurements_run_in_priority_order_witness :
  ∃ st' new,
    demo_main demo_run0 = (inr tt, st')
    ∧ measured st' = measured demo_run0 ++ new
    ∧ new.*1 ≡ₚ combinations ["wave"; "euler"] [2; 3]%Z [1; 2; 3]%Z [1; 0; 2]
    ∧ StronglySorted
        (λ m1 m2,
           _get_actx_t_priority demo_issubclass 1 2 m1.1.1.1
           ≤ _get_actx_t_priority demo_issubclass 1 2 m2.1.1.1) new.*1
    ∧ ∀ n,
        filter (λ m, _get_actx_t_priority demo_issubclass 1 2 m.1.1.1 = n)
          new.*1
        = filter (λ m, _get_actx_t_priority demo_issubclass 1 2 m.1.1.1 = n)
            (combinations ["wave"; "euler"] [2; 3]%Z [1; 2; 3]%Z [1; 0; 2]).
Proof.
  unfold demo_main.
  apply (measurements_run_in_priority_order demo_issubclass 1 2
           demo_get_flop_rate).
  intros actx_t0 equation dim degree w. reflexivity.
Defined.
